(** * onnx-mlir: the ONNX frontend importer and the OMTensor runtime

    A shallow embedding of
      - [src/builder/frontend_dialect_transformer.cpp]: the name legalizer,
        the symbol table [OnnxOnnfSymbolMapping] and the importer
        [FrontendGenImpl], from the types and symbols of the graph inputs
        over the nodes to the outputs and the function of [ImportGraph];
      - [OMTensor.inc]: the strided tensor descriptor, its creation and
        destruction, its setters, the dense-stride check of
        [omTensorGetNumElems] and the tolerance comparison
        [omTensorAreTwoOmtsClose].

    Conventions.  A [std::string] is a [list ascii]; an [int64_t] is a [Z]
    with its wrap-around written out ([wrap64]); a [std::map] is a [gmap];
    pointers are block addresses in an explicit heap.  Undefined behaviour and
    failed assertions are results of type [res], never silent. *)

From Stdlib Require Import ZArith QArith Ascii String List Lia.
From stdpp Require Import gmap strings list fin_maps.

(* ===================================================================== *)
(** * Part I: definitions                                                 *)
(* ===================================================================== *)

(** ** Strings *)

Abbreviation cstring := (list ascii).

(** A string literal of the source, as a [cstring]. *)
Definition cstr (s : string) : cstring := list_ascii_of_string s.
Arguments cstr s%_string.

(** [str.compare(0, from.size(), from) == 0]: does [str] start with [from]? *)
Fixpoint starts_with (from str : cstring) : bool :=
  match from, str with
  | [], _ => true
  | c :: from', d :: str' => if decide (c = d) then starts_with from' str' else false
  | _ :: _, [] => false
  end.

(** Index of the first occurrence of [from] in [str], if any. *)
Fixpoint find_here (str from : cstring) : option nat :=
  if starts_with from str then Some 0
  else match str with
       | [] => None
       | _ :: str' => S <$> find_here str' from
       end.

(** [std::string::find(from, pos)]; [None] is [npos]. *)
Definition string_find (str from : cstring) (pos : nat) : option nat :=
  if decide (pos ≤ length str)
  then (λ k, pos + k) <$> find_here (drop pos str) from
  else None.

(** [std::string::replace(pos, len, to)] for [pos <= size()]. *)
Definition string_replace (str : cstring) (pos len : nat) (to : cstring) : cstring :=
  take pos str ++ to ++ drop (pos + len) str.

(** The [while] loop of [replaceAll]: one unit of fuel per iteration.
    [None] only when the fuel runs out. *)
Fixpoint replaceAll_loop (fuel : nat) (str from to : cstring) (start_pos : nat)
  : option cstring :=
  match fuel with
  | 0 => None
  | S fuel' =>
      match string_find str from start_pos with
      | None => Some str
      | Some p =>
          replaceAll_loop fuel' (string_replace str p (length from) to) from to
            (p + length to)
      end
  end.

(** [replaceAll(str, from, to)].  Every iteration consumes at least one
    character of the part of [str] not yet scanned, so [S (length str)]
    iterations are enough (lemma [replaceAll_loop_terminates]). *)
Definition replaceAll (str from to : cstring) : cstring :=
  if decide (from = []) then str
  else default str (replaceAll_loop (S (length str)) str from to 0).

(** [std::replace(first, last, old_value, new_value)] on characters. *)
Definition std_replace (name : cstring) (old_value new_value : ascii) : cstring :=
  (λ c, if decide (c = old_value) then new_value else c) <$> name.

(** [isdigit] of <cctype> in the C locale. *)
Definition isdigit (c : ascii) : bool :=
  (48 <=? nat_of_ascii c) && (nat_of_ascii c <=? 57).

(** [legalize_name]. *)
Definition legalize_name (name : cstring) : cstring :=
  let name := std_replace name "/"%char "_"%char in
  let name := std_replace name "-"%char "_"%char in
  let name := replaceAll name (cstr ":") (cstr "_colon_") in
  match name with
  | c0 :: _ => if isdigit c0 then "n"%char :: name else name
  | [] => name
  end.

(** ** Results of fallible code *)

(** What stops a run: a failed [assert], an exception that nothing catches,
    or undefined behaviour of the C++ abstract machine (which the model
    reports instead of giving it a meaning). *)
Inductive fault :=
  | AssertionFailed (msg : string)  (* assert(...) with NDEBUG unset *)
  | OutOfRange                      (* std::out_of_range from at() *)
  | LengthError                     (* std::length_error: container of negative size *)
  | OutOfBounds                     (* access outside an array, vector or live block *)
  | DivisionTrap                    (* integer division by zero, or INT_MIN / -1 *)
  | InvalidFree.                    (* free of a pointer that is not a live block *)

Inductive res (A : Type) :=
  | Ok (a : A)
  | Fail (f : fault).
Arguments Ok {A} a.
Arguments Fail {A} f.

Definition res_bind {A B} (r : res A) (k : A → res B) : res B :=
  match r with
  | Ok a => k a
  | Fail f => Fail f
  end.

(** Stateful fallible code: a state and error monad. *)
Definition M (S A : Type) : Type := S → res (A * S).

Definition ret {S A} (a : A) : M S A := λ s, Ok (a, s).
Definition bind {S A B} (m : M S A) (k : A → M S B) : M S B :=
  λ s, match m s with
       | Ok (a, s') => k a s'
       | Fail f => Fail f
       end.
Definition throw {S A} (f : fault) : M S A := λ _, Fail f.
Definition get {S} : M S S := λ s, Ok (s, s).
Definition put {S} (s : S) : M S unit := λ _, Ok (tt, s).
Definition modify {S} (f : S → S) : M S unit := λ s, Ok (tt, f s).
(** Run read-only code on the current state. *)
Definition reading {S A} (f : S → res A) : M S A :=
  λ s, match f s with
       | Ok a => Ok (a, s)
       | Fail e => Fail e
       end.
Definition assert {S} (b : bool) (msg : string) : M S unit :=
  if b then ret tt else throw (AssertionFailed msg).

Declare Scope m_scope.
Delimit Scope m_scope with M.
Notation "'do' x <- m ; k" := (bind m (λ x, k))
  (at level 10, x name, m at level 100, k at level 200) : m_scope.
Notation "'try' x <- r ; k" := (res_bind r (λ x, k))
  (at level 10, x name, r at level 100, k at level 200) : m_scope.
Open Scope m_scope.

(** [v[i]] on a [std::vector] or a protobuf repeated field: no bounds check
    in the source, so an index past the end is undefined behaviour. *)
Definition index {A} (v : list A) (i : nat) : res A :=
  match v !! i with
  | Some x => Ok x
  | None => Fail OutOfBounds
  end.

(** ** The symbol table: [OnnxOnnfSymbolMapping] *)

(** An [mlir::Value*]: a formal parameter of the entry block, or the [i]-th
    result of the [op]-th operation the builder has created. *)
Inductive Value :=
  | BlockArgument (i : nat)
  | OpResult (op : nat) (i : nat).

(** [onnx_name2onnf_tensor], the only member of [OnnxOnnfSymbolMapping]. *)
Abbreviation symbol_map := (gmap cstring Value).

(** [std::map::at]: throws [std::out_of_range] on a missing key. *)
Definition map_at (m : symbol_map) (key : cstring) : res Value :=
  match m !! key with
  | Some v => Ok v
  | None => Fail OutOfRange
  end.

(** [std::map::emplace]: inserts only when the key is absent. *)
Definition map_emplace (m : symbol_map) (key : cstring) (v : Value) : symbol_map :=
  match m !! key with
  | Some _ => m
  | None => <[key := v]> m
  end.

(** [std::map::count]. *)
Definition map_count (m : symbol_map) (key : cstring) : nat :=
  match m !! key with
  | Some _ => 1
  | None => 0
  end.

Definition GetTensorByOnnxName (m : symbol_map) (name : cstring) : res Value :=
  map_at m (legalize_name name).

Definition AddMapping (m : symbol_map) (name : cstring) (tensor : Value) : symbol_map :=
  map_emplace m (legalize_name name) tensor.

Definition ContainKey (m : symbol_map) (name : cstring) : bool :=
  negb (map_count m name =? 0).

(** ** The importer: [FrontendGenImpl] *)

(** The MLIR types the node importer builds. *)
Inductive MlirType :=
  | F32Type
  | UnrankedTensorType (elementType : MlirType).

(** The operations the node importer builds: the four ONNX dialect
    operations and the generic operation made from an [OperationState]. *)
Inductive Operation :=
  | ONNXAddOp (resultType : MlirType) (lhs rhs : Value)
  | ONNXMatMulOp (resultType : MlirType) (lhs rhs : Value)
  | ONNXFullGemmOp (resultType : MlirType) (a b c : Value)
  | ONNXGemmOp (resultType : MlirType) (operands : list Value)
  | GenericOperation (name : cstring) (types : list MlirType) (operands : list Value).

(** [onnx::NodeProto] and [onnx::ValueInfoProto], as far as the importer
    reads them. *)
Record NodeProto := {
  op_type : cstring;
  input : list cstring;
  output : list cstring
}.

Record ValueInfoProto := { name : cstring }.

(** The importer's mutable state: the symbol table and the operations that
    [builder_] has inserted into the entry block, in order. *)
Record FrontendGenImpl := {
  frontend_symbols_ : symbol_map;
  entryBlock : list Operation
}.

Definition Import := M FrontendGenImpl.

(** [frontend_symbols_.AddMapping(name, tensor)] on the importer state. *)
Definition add_symbol (nm : cstring) (tensor : Value) : Import unit :=
  modify (λ s, {| frontend_symbols_ := AddMapping (frontend_symbols_ s) nm tensor;
                  entryBlock := entryBlock s |}).

(** [builder_.create<Op>(...)] and [builder_.createOperation(state)]: append
    the operation to the block; the answer is its position, from which its
    results are named. *)
Definition create (op : Operation) : Import nat :=
  λ s, Ok (length (entryBlock s),
           {| frontend_symbols_ := frontend_symbols_ s;
              entryBlock := entryBlock s ++ [op] |}).

Definition ImportInputTensorSymbol (inp : ValueInfoProto) (symbol : Value)
  : Import unit :=
  let input_tensor_legalized_name := legalize_name (name inp) in
  do s <- get;
  do _ <- assert (negb (ContainKey (frontend_symbols_ s) input_tensor_legalized_name))
            "Found duplicate legalized input tensor names.";
  add_symbol input_tensor_legalized_name symbol.

(** The first loop of [ImportNode]: [inputs] is the vector built so far. *)
Fixpoint resolve_inputs (items : list cstring) (inputs : list Value)
  : Import (list Value) :=
  match items with
  | [] => ret inputs
  | item :: items' =>
      do s <- get;
      if ContainKey (frontend_symbols_ s) (legalize_name item)
      then do v <- reading (λ s, GetTensorByOnnxName (frontend_symbols_ s) item);
           resolve_inputs items' (inputs ++ [v])
      else resolve_inputs items' inputs
  end.

(** The last loop of [ImportNode]: bind output [i] to result [i] of [op]. *)
Fixpoint bind_results (op : nat) (outputs : list cstring) (i : nat) : Import unit :=
  match outputs with
  | [] => ret tt
  | o :: outputs' =>
      do _ <- add_symbol (legalize_name o) (OpResult op i);
      bind_results op outputs' (S i)
  end.

(** [mlir::UnrankedTensorType::get(builder_.getF32Type())]. *)
Definition f32tensor : MlirType := UnrankedTensorType F32Type.

Definition ImportNode (node : NodeProto) : Import unit :=
  do inputs <- resolve_inputs (input node) [];
  let OpName := op_type node in
  let out0 (_ : unit) : Import cstring := reading (λ _, index (output node) 0) in
  if decide (OpName = cstr "Add") then
    do i0 <- reading (λ _, index inputs 0);
    do i1 <- reading (λ _, index inputs 1);
    do op <- create (ONNXAddOp f32tensor i0 i1);
    do o <- out0 tt;
    add_symbol (legalize_name o) (OpResult op 0)
  else if decide (OpName = cstr "MatMul") then
    do i0 <- reading (λ _, index inputs 0);
    do i1 <- reading (λ _, index inputs 1);
    do op <- create (ONNXMatMulOp f32tensor i0 i1);
    do o <- out0 tt;
    add_symbol (legalize_name o) (OpResult op 0)
  else if decide (OpName = cstr "Gemm") then
    if decide (length inputs = 3) then
      do i0 <- reading (λ _, index inputs 0);
      do i1 <- reading (λ _, index inputs 1);
      do i2 <- reading (λ _, index inputs 2);
      do op <- create (ONNXFullGemmOp f32tensor i0 i1 i2);
      do o <- out0 tt;
      add_symbol (legalize_name o) (OpResult op 0)
    else
      do op <- create (ONNXGemmOp f32tensor inputs);
      do o <- out0 tt;
      add_symbol (legalize_name o) (OpResult op 0)
  else
    (* Old way of doing things. *)
    do op <- create (GenericOperation (cstr "frontend." ++ op_type node)
                       ((λ _, f32tensor) <$> output node) inputs);
    bind_results op (output node) 0.

(** The node loop of [ImportGraph]. *)
Fixpoint ImportNodes (nodes : list NodeProto) : Import unit :=
  match nodes with
  | [] => ret tt
  | item :: nodes' => do _ <- ImportNode item; ImportNodes nodes'
  end.

(** The input loop of [ImportGraph]: input [i] is bound to formal
    parameter [i] of the entry block. *)
Fixpoint ImportInputs (inputs : list ValueInfoProto) (i : nat) : Import unit :=
  match inputs with
  | [] => ret tt
  | inp :: inputs' =>
      do _ <- ImportInputTensorSymbol inp (BlockArgument i);
      ImportInputs inputs' (S i)
  end.

(** [ImportOutputTensor], for the returned values ([ret_vals]). *)
Definition ImportOutputTensor (out : ValueInfoProto) (ret_vals : list Value)
  : Import (list Value) :=
  let output_tensor_legalized_name := legalize_name (name out) in
  do s <- get;
  do _ <- assert (ContainKey (frontend_symbols_ s) output_tensor_legalized_name)
            "Output tensor not found";
  do tensor_val <- reading (λ s, GetTensorByOnnxName (frontend_symbols_ s)
                                   output_tensor_legalized_name);
  ret (ret_vals ++ [tensor_val]).

(** ** Machine integers *)

(** The value of a [w]-bit two's complement integer holding [z]. *)
Definition wrap (w : Z) (z : Z) : Z :=
  ((z + 2 ^ (w - 1)) mod 2 ^ w - 2 ^ (w - 1))%Z.

Definition wrap64 : Z → Z := wrap 64.

(** [a * b] on [int64_t]. *)
Definition mul64 (a b : Z) : Z := wrap64 (a * b).

(** ** The heap *)

(** A pointer is the address of a block; [NULL] is address 0. *)
Abbreviation ptr := N.
Definition NULL : ptr := 0%N.

(** Modelled from the spec: the enumeration [OM_DATA_TYPE] of
    [onnx-mlir/Runtime/OMTensor.h], which is not among the sources; the
    element kinds are those of the spec's data model. *)
Inductive OM_DATA_TYPE :=
  | ONNX_TYPE_UNDEFINED
  | ONNX_TYPE_FLOAT16 | ONNX_TYPE_FLOAT | ONNX_TYPE_DOUBLE
  | ONNX_TYPE_INT8 | ONNX_TYPE_UINT8 | ONNX_TYPE_INT16 | ONNX_TYPE_UINT16
  | ONNX_TYPE_INT32 | ONNX_TYPE_UINT32 | ONNX_TYPE_INT64 | ONNX_TYPE_UINT64
  | ONNX_TYPE_BOOL.

(** [struct OMTensor]. *)
Record OMTensor := mkOMTensor {
  _allocatedPtr : ptr;
  _alignedPtr : ptr;
  _offset : Z;
  _shape : ptr;
  _stride : ptr;
  _rank : Z;
  _dataType : OM_DATA_TYPE;
  _owning : Z
}.

(** A block of the heap: an array of integers (a shape array, a stride
    array, or a data buffer seen as the array of its elements) or one
    [OMTensor] structure. *)
Inductive block :=
  | Cells (vs : list Z)
  | Struct (t : OMTensor).

(** The heap: the live blocks, the highest address handed out so far, and
    the outcomes of the coming [malloc] calls ([false]: that call fails; an
    empty list: every call succeeds). *)
Record heap := mkHeap {
  blocks : gmap ptr block;
  brk : ptr;
  oracle : list bool
}.

(** What [malloc] leaves in a fresh block is indeterminate; the model fills
    it with zeros. *)
Definition blank_tensor : OMTensor :=
  mkOMTensor NULL NULL 0 NULL NULL 0 ONNX_TYPE_UNDEFINED 0.

Definition malloc (b : block) : M heap ptr :=
  λ h, match oracle h with
       | false :: o => Ok (NULL, mkHeap (blocks h) (brk h) o)
       | o => let p := (brk h + 1)%N in
              Ok (p, mkHeap (<[p := b]> (blocks h)) p (tail o))
       end.

(** [(int64_t * )malloc(rank * sizeof(int64_t))]: a negative [rank] turns
    into a size no allocator grants. *)
Definition malloc_int64s (rank : Z) : M heap ptr :=
  if (rank <? 0)%Z then ret NULL else malloc (Cells (replicate (Z.to_nat rank) 0%Z)).

(** [free(p)]: nothing for [NULL]; a pointer that is not a live block
    (already freed, or never allocated) is undefined behaviour. *)
Definition free (p : ptr) : M heap unit :=
  λ h, if decide (p = NULL) then Ok (tt, h)
       else match blocks h !! p with
            | Some _ => Ok (tt, mkHeap (delete p (blocks h)) (brk h) (oracle h))
            | None => Fail InvalidFree
            end.

(** Reading and writing through pointers. *)
Definition load_tensor (h : heap) (tensor : ptr) : res OMTensor :=
  match blocks h !! tensor with
  | Some (Struct t) => Ok t
  | _ => Fail OutOfBounds
  end.

Definition store_tensor (tensor : ptr) (t : OMTensor) : M heap unit :=
  λ h, match blocks h !! tensor with
       | Some (Struct _) =>
           Ok (tt, mkHeap (<[tensor := Struct t]> (blocks h)) (brk h) (oracle h))
       | _ => Fail OutOfBounds
       end.

(** [p[i]] as an rvalue. *)
Definition load_cell (h : heap) (p : ptr) (i : nat) : res Z :=
  match blocks h !! p with
  | Some (Cells vs) => index vs i
  | _ => Fail OutOfBounds
  end.

(** [p[i] = v]. *)
Definition store_cell (p : ptr) (i : nat) (v : Z) : M heap unit :=
  λ h, match blocks h !! p with
       | Some (Cells vs) =>
           if decide (i < length vs)
           then Ok (tt, mkHeap (<[p := Cells (<[i := v]> vs)]> (blocks h)) (brk h) (oracle h))
           else Fail OutOfBounds
       | _ => Fail OutOfBounds
       end.

(** The range [p, p + n) read as a vector, as in
    [std::vector<int64_t>(p, p + n)]. *)
Definition load_cells (h : heap) (p : ptr) (n : Z) : res (list Z) :=
  match blocks h !! p with
  | Some (Cells vs) =>
      if decide (0 ≤ n ∧ n ≤ Z.of_nat (length vs))%Z
      then Ok (take (Z.to_nat n) vs)
      else Fail OutOfBounds
  | _ => if decide (n = 0%Z) then Ok [] else Fail OutOfBounds
  end.

(** Field updates of [struct OMTensor]. *)
Definition with_shape (t : OMTensor) (p : ptr) : OMTensor :=
  mkOMTensor (_allocatedPtr t) (_alignedPtr t) (_offset t) p (_stride t)
    (_rank t) (_dataType t) (_owning t).
Definition with_stride (t : OMTensor) (p : ptr) : OMTensor :=
  mkOMTensor (_allocatedPtr t) (_alignedPtr t) (_offset t) (_shape t) p
    (_rank t) (_dataType t) (_owning t).
Definition with_owning (t : OMTensor) (owning : Z) : OMTensor :=
  mkOMTensor (_allocatedPtr t) (_alignedPtr t) (_offset t) (_shape t) (_stride t)
    (_rank t) (_dataType t) owning.
Definition with_ptrs (t : OMTensor) (allocatedPtr alignedPtr : ptr) : OMTensor :=
  mkOMTensor allocatedPtr alignedPtr (_offset t) (_shape t) (_stride t)
    (_rank t) (_dataType t) (_owning t).

(** [tensor->field = ...] *)
Definition update_tensor (tensor : ptr) (f : OMTensor → OMTensor) : M heap unit :=
  do t <- reading (λ h, load_tensor h tensor);
  store_tensor tensor (f t).

(** ** Creation and destruction of tensors *)

(** One iteration of the loop of [omTensorCreate], at index [i];
    [shape] is the caller's array. *)
Definition create_step (tensor : ptr) (shape : list Z) (rank : Z) (i : nat)
  : M heap unit :=
  do x <- reading (λ _, index shape i);
  do t <- reading (λ h, load_tensor h tensor);
  do _ <- store_cell (_shape t) i x;
  if (Z.of_nat i =? rank - 1)%Z
  then store_cell (_stride t) i 1%Z
  else
    do a <- reading (λ h, load_cell h (_stride t) (i + 1));
    do b <- reading (λ h, load_cell h (_shape t) (i + 1));
    store_cell (_stride t) i (mul64 a b).

(** [for (int64_t i = k - 1; i >= 0; i--)]. *)
Fixpoint create_loop (k : nat) (tensor : ptr) (shape : list Z) (rank : Z)
  : M heap unit :=
  match k with
  | 0 => ret tt
  | S i =>
      do _ <- create_step tensor shape rank i;
      create_loop i tensor shape rank
  end.

Definition omTensorCreate (data_ptr : ptr) (shape : list Z) (rank : Z)
    (dtype : OM_DATA_TYPE) : M heap ptr :=
  do tensor <- malloc (Struct blank_tensor);
  if decide (tensor = NULL) then ret NULL else
  let fill : M heap ptr :=
    do _ <- create_loop (Z.to_nat rank) tensor shape rank;
    ret tensor in
  (* (tensor->_shape = malloc(...)) && (tensor->_stride = malloc(...)) *)
  do shp <- malloc_int64s rank;
  do _ <- update_tensor tensor (λ t, with_shape t shp);
  do both <- (if decide (shp = NULL) then ret false
              else do str <- malloc_int64s rank;
                   do _ <- update_tensor tensor (λ t, with_stride t str);
                   ret (bool_decide (str ≠ NULL)));
  if both : bool then
    do t <- reading (λ h, load_tensor h tensor);
    if decide (_shape t = NULL ∨ _stride t = NULL) then
      do _ <- (if decide (_shape t = NULL) then ret tt else free (_shape t));
      do _ <- (if decide (_stride t = NULL) then ret tt else free (_stride t));
      ret NULL
    else
      do _ <- update_tensor tensor (λ t,
                mkOMTensor data_ptr data_ptr (_offset t) (_shape t) (_stride t)
                  rank dtype 0);
      fill
  else fill.

Definition omTensorCreateWithOwnership (data_ptr : ptr) (shape : list Z)
    (rank : Z) (dtype : OM_DATA_TYPE) (owning : Z) : M heap ptr :=
  do tensor <- omTensorCreate data_ptr shape rank dtype;
  if decide (tensor = NULL) then ret NULL else
  do _ <- update_tensor tensor (λ t, with_owning t owning);
  ret tensor.

(** [omTensorDestroy]. *)
Definition omTensorDestroy (tensor : ptr) : M heap unit :=
  do t <- reading (λ h, load_tensor h tensor);
  do _ <- (if decide (_owning t ≠ 0%Z)
           then do _ <- free (_allocatedPtr t);
                update_tensor tensor (λ t, with_ptrs t NULL NULL)
           else ret tt);
  free tensor.

(** The destructor [OMTensor::~OMTensor], run on the object at [this]. *)
Definition OMTensor_destructor (this : ptr) : M heap unit :=
  do t <- reading (λ h, load_tensor h this);
  do _ <- (if decide (_owning t ≠ 0%Z) then free (_allocatedPtr t) else ret tt);
  do _ <- free (_shape t);
  free (_stride t).

(** [for (int i = k; i < rank; i++) tensor->_stride[i] = strides[i];
    the loop of [omTensorSetStrides], [n] iterations left. *)
Fixpoint set_strides_loop (n : nat) (tensor : ptr) (strides : list Z) (i : nat)
  : M heap unit :=
  match n with
  | 0 => ret tt
  | S n' =>
      do x <- reading (λ _, index strides i);
      do t <- reading (λ h, load_tensor h tensor);
      do _ <- store_cell (_stride t) i x;
      set_strides_loop n' tensor strides (S i)
  end.

Definition omTensorSetStrides (tensor : ptr) (strides : list Z) : M heap unit :=
  do t <- reading (λ h, load_tensor h tensor);
  set_strides_loop (Z.to_nat (_rank t)) tensor strides 0.

(** ** Element count *)

(** Modelled from the spec: [getNumOfElems] of [OMTensorHelper.h], which is
    not among the sources: the product of the [rank] extents of [shape]. *)
Definition getNumOfElems (h : heap) (shape : ptr) (rank : Z) : res Z :=
  try extents <- load_cells h shape (Z.max 0 rank);
  Ok (foldl mul64 1%Z extents).

(** [for (int64_t j = ...; j < rank; j++) strideIfNotSkipping *= shape[j];]
    with [n] iterations left. *)
Fixpoint stride_if_not_skipping (h : heap) (shape : ptr) (j n : nat)
    (strideIfNotSkipping : Z) : res Z :=
  match n with
  | 0 => Ok strideIfNotSkipping
  | S n' =>
      try x <- load_cell h shape j;
      stride_if_not_skipping h shape (S j) n' (mul64 strideIfNotSkipping x)
  end.

(** [assert(tensor->_stride[i] == strideIfNotSkipping)], failed. *)
Definition dense_assertion : fault :=
  AssertionFailed "tensor->_stride[i] == strideIfNotSkipping".

(** The outer loop of [omTensorGetNumElems], [i] running from [k - 1] down
    to 0. *)
Fixpoint check_dense (h : heap) (t : OMTensor) (k : nat) : res unit :=
  match k with
  | 0 => Ok tt
  | S i =>
      try s <- stride_if_not_skipping h (_shape t) (i + 1)
                 (Z.to_nat (_rank t) - (i + 1)) 1%Z;
      try st <- load_cell h (_stride t) i;
      if (st =? s)%Z then check_dense h t i
      else Fail dense_assertion
  end.

Definition omTensorGetNumElems (h : heap) (tensor : ptr) : res Z :=
  try t <- load_tensor h tensor;
  try _ <- check_dense h t (Z.to_nat (_rank t));
  getNumOfElems h (_shape t) (_rank t).

(** ** Index sets and element access *)

(** Modelled from the spec: [CartProduct] of [OMTensorHelper.h], which is
    not among the sources: the Cartesian product of the per-dimension index
    sets in row-major nesting order (the first dimension outermost). *)
Definition CartProduct (dimWiseIdxSet : list (list Z)) : list (list Z) :=
  foldr (λ dimIdxSet rest, flat_map (λ i, cons i <$> rest) dimIdxSet) [[]]
    dimWiseIdxSet.

(** [std::vector<int64_t> dimIdxSet(dimSize); iota(begin, end, 0)]. *)
Definition iota_vector (dimSize : Z) : res (list Z) :=
  if (dimSize <? 0)%Z then Fail LengthError
  else Ok (Z.of_nat <$> seq 0 (Z.to_nat dimSize)).

Fixpoint iota_vectors (dims : list Z) : res (list (list Z)) :=
  match dims with
  | [] => Ok []
  | dimSize :: dims' =>
      try dimIdxSet <- iota_vector dimSize;
      try rest <- iota_vectors dims';
      Ok (dimIdxSet :: rest)
  end.

Definition omTensorComputeIndexSet (h : heap) (omt : ptr) : res (list (list Z)) :=
  try t <- load_tensor h omt;
  try shape <- load_cells h (_shape t) (_rank t);
  try dimWiseIdxSet <- iota_vectors shape;
  Ok (CartProduct dimWiseIdxSet).

(** Modelled from the spec: [computeElemOffset] of [OMTensorHelper.h], which
    is not among the sources: the dot product of the multi-index with the
    strides; the multi-index must have [rank] entries. *)
Definition computeElemOffset (h : heap) (stride : ptr) (rank : Z)
    (indexes : list Z) : res Z :=
  if decide (Z.of_nat (length indexes) = rank) then
    try strides <- load_cells h stride rank;
    Ok (foldl (λ acc p, wrap64 (acc + mul64 p.1 p.2)) 0%Z (zip indexes strides))
  else Fail (AssertionFailed "indexes.size() == rank").

Definition omTensorComputeElemOffset (h : heap) (omt : ptr) (indexes : list Z)
  : res Z :=
  try t <- load_tensor h omt;
  computeElemOffset h (_stride t) (_rank t) indexes.

(** [omTensorGetElem<T>], as an rvalue. *)
Definition omTensorGetElem (h : heap) (omt : ptr) (indexes : list Z) : res Z :=
  try elemOffset <- omTensorComputeElemOffset h omt indexes;
  try t <- load_tensor h omt;
  if (elemOffset <? 0)%Z then Fail OutOfBounds
  else load_cell h (_allocatedPtr t) (Z.to_nat elemOffset).

(** ** Element types and tolerances *)

(** The integer instantiations of the templates.  ([float] and [double] are
    instantiated too; floating-point elements are outside this model.) *)
Inductive elem_type :=
  | int32_t
  | int64_t.

Definition bits (T : elem_type) : Z :=
  match T with
  | int32_t => 32
  | int64_t => 64
  end.

Definition T_min (T : elem_type) : Z := (- 2 ^ (bits T - 1))%Z.

(** [std::minus<>()] on two [T]. *)
Definition T_minus (T : elem_type) (x y : Z) : Z := wrap (bits T) (x - y).

(** [std::abs] on [T]. *)
Definition T_abs (T : elem_type) (x : Z) : Z := wrap (bits T) (Z.abs x).

(** [std::divides<>()] on two [T]: truncating division, which traps on a
    zero divisor and on the one quotient that does not fit. *)
Definition T_divides (T : elem_type) (x y : Z) : res Z :=
  if decide (y = 0%Z) then Fail DivisionTrap
  else if decide (x = T_min T ∧ y = (-1)%Z) then Fail DivisionTrap
  else Ok (Z.quot x y).

(** The value of [(float)x] for an integer [x]: [x] rounded to 24
    significant bits, ties to even.  The result is again an integer. *)
Definition float_of_int (x : Z) : Z :=
  let m := Z.abs x in
  let n := (Z.log2 m + 1)%Z in
  if (n <=? 24)%Z then x
  else
    let sh := (n - 24)%Z in
    let q := Z.shiftr m sh in
    let r := Z.land m (Z.ones sh) in
    let half := (2 ^ (sh - 1))%Z in
    let q' := if (half <? r)%Z || ((r =? half)%Z && Z.odd q) then (q + 1)%Z else q in
    (Z.sgn x * Z.shiftl q' sh)%Z.

(** [x < y] on rationals. *)
Definition Qltb (x y : Q) : bool :=
  (Qnum x * Z.pos (Qden y) <? Qnum y * Z.pos (Qden x))%Z.

(** [a < tol] for [T a] and [float tol]: the usual arithmetic conversions
    turn [a] into a [float].  A tolerance is a finite [float], given by its
    exact rational value. *)
Definition T_lt_tol (a : Z) (tol : Q) : bool := Qltb (inject_Z (float_of_int a)) tol.

(** ** The tolerance comparison *)

(** What is written to [std::cerr]. *)
Inductive event :=
  | EStr (s : string)                    (* << "..." *)
  | EVec (v : list Z) (delimiter : string) (* printVector(v, delimiter, std::cerr) *)
  | ENum (z : Z)                         (* << element *)
  | EEndl.                               (* << std::endl *)

Definition print (e : event) : M (list event) unit := modify (λ out, out ++ [e]).
Definition printVector (v : list Z) (delimiter : string) : M (list event) unit :=
  print (EVec v delimiter).
Definition pure {S A} (r : res A) : M S A := reading (λ _, r).

(** [std::transform(x.begin(), x.end(), y, out, std::divides<>())]. *)
Fixpoint divide_all (T : elem_type) (xs ys : list Z) : res (list Z) :=
  match xs, ys with
  | x :: xs', y :: ys' =>
      try q <- T_divides T x y;
      try qs <- divide_all T xs' ys';
      Ok (q :: qs)
  | _, _ => Ok []
  end.

(** The unqualified [abs] of the diagnostic loop.  The call is not
    [std::abs]: with the headers included here on Linux ([<malloc.h>], and
    not [<stdlib.h>]) the only [abs] declared in the global namespace is
    [int abs(int)] of the C library, so the difference is converted to [int]
    first, whatever [T] is.  For [int32_t] this is [std::abs] on [T]; for
    [int64_t] the difference loses its high 32 bits. *)
Definition int_abs (x : Z) : Z := wrap 32 (Z.abs (wrap 32 x)).

(** The diagnostic loop over the index set.  [elmAbsDiff] is an [int]; in
    [elmAbsDiff / aElem] it is converted back to [T]. *)
Fixpoint report_mismatches (T : elem_type) (h : heap) (a b : ptr)
    (rtol atol : Q) (idxs : list (list Z)) : M (list event) unit :=
  match idxs with
  | [] => ret tt
  | idx :: idxs' =>
      do aElem <- pure (omTensorGetElem h a idx);
      do bElem <- pure (omTensorGetElem h b idx);
      let elmAbsDiff := int_abs (T_minus T aElem bElem) in
      do q <- pure (T_divides T elmAbsDiff aElem);
      let withinRtol := T_lt_tol q rtol in
      let withinAtol := T_lt_tol elmAbsDiff atol in
      do _ <- (if negb withinRtol || negb withinAtol then
                 do _ <- print (EStr "a[");
                 do _ <- printVector idx ",";
                 do _ <- print (EStr "] = ");
                 do _ <- print (ENum aElem);
                 do _ <- print (EStr " != ");
                 do _ <- print (EStr "b[");
                 do _ <- printVector idx ",";
                 do _ <- print (EStr "] = ");
                 do _ <- print (ENum bElem);
                 print EEndl
               else ret tt);
      report_mismatches T h a b rtol atol idxs'
  end.

(** [omTensorAreTwoOmtsClose<T>]: the state is what has been written to
    [std::cerr]; the heap is only read. *)
Definition omTensorAreTwoOmtsClose (T : elem_type) (h : heap) (a b : ptr)
    (rtol atol : Q) : M (list event) bool :=
  do ta <- pure (load_tensor h a);
  do tb <- pure (load_tensor h b);
  (* Compare shape. *)
  do aShape <- pure (load_cells h (_shape ta) (_rank ta));
  do bShape <- pure (load_cells h (_shape tb) (_rank tb));
  if decide (aShape ≠ bShape) then
    do _ <- print (EStr "Shape mismatch ");
    do _ <- printVector aShape ",";
    do _ <- print (EStr " != ");
    do _ <- printVector bShape ",";
    ret false
  else
  (* Compute absolute difference, verify it's within tolerable range. *)
  do anum <- pure (omTensorGetNumElems h a);
  do _ <- (if (anum <? 0)%Z then throw LengthError else ret tt);
  do aData <- pure (load_cells h (_allocatedPtr ta) anum);
  do bData <- pure (load_cells h (_allocatedPtr tb) anum);
  let absoluteDiff := zip_with (T_minus T) aData bData in
  let absoluteDiff := T_abs T <$> absoluteDiff in
  let atolSatisfied := forallb (λ x, T_lt_tol x atol) absoluteDiff in
  (* Compute relative difference, verify it's within tolerable range. *)
  do relativeDiff <- pure (divide_all T absoluteDiff aData);
  let rtolSatisfied := forallb (λ x, T_lt_tol x rtol) relativeDiff in
  if atolSatisfied && rtolSatisfied then ret true
  else
    do idxs <- pure (omTensorComputeIndexSet h a);
    do _ <- report_mismatches T h a b rtol atol idxs;
    ret false.

(** ** Specification-side definitions *)

(** What replacing a single character does, character by character. *)
Definition subst_char (c : ascii) (to : cstring) (x : ascii) : cstring :=
  if decide (x = c) then to else [x].

(** The characters a legalized name is free of. *)
Definition legal_char (c : ascii) : Prop :=
  c ≠ "/"%char ∧ c ≠ "-"%char ∧ c ≠ ":"%char.

(** [legalize_name] without its last step. *)
Definition legalize_body (s : cstring) : cstring :=
  flat_map (subst_char ":"%char (cstr "_colon_"))
    (std_replace (std_replace s "/"%char "_"%char) "-"%char "_"%char).

(** Every key of the table is a legalized name: the state of the private
    map after any sequence of [AddMapping] calls. *)
Definition legalized_keys (m : symbol_map) : Prop :=
  ∀ k v, m !! k = Some v → legalize_name k = k.

(** The operand list [ImportNode] resolves: the bound names, in order. *)
Definition resolved (m : symbol_map) (items : list cstring) : list Value :=
  omap (λ item, m !! legalize_name item) items.

(** The nodes at which [ImportNode] indexes a vector without a check and
    past its end: an Add or MatMul node left with fewer than two resolved
    operands ([inputs[0]], [inputs[1]]), and an Add, MatMul or Gemm node
    without an output to name ([node.output()[0]]). *)
Definition reads_past_the_end (m : symbol_map) (node : NodeProto) : Prop :=
  ((op_type node = cstr "Add" ∨ op_type node = cstr "MatMul")
   ∧ length (resolved m (input node)) < 2)
  ∨ ((op_type node = cstr "Add" ∨ op_type node = cstr "MatMul"
      ∨ op_type node = cstr "Gemm")
     ∧ output node = []).

Definition empty_importer : FrontendGenImpl :=
  {| frontend_symbols_ := ∅; entryBlock := [] |}.

(** A graph whose two nodes both name their output [y]. *)
Definition dup_inputs : list ValueInfoProto := [ {| name := cstr "x" |} ].
Definition dup_nodes : list NodeProto :=
  [ {| op_type := cstr "Relu"; input := [cstr "x"]; output := [cstr "y"] |};
    {| op_type := cstr "Sigmoid"; input := [cstr "x"]; output := [cstr "y"] |} ].

(** A Gemm node of which a single input is bound. *)
Definition gemm1_state : FrontendGenImpl :=
  {| frontend_symbols_ := AddMapping ∅ (cstr "x") (BlockArgument 0);
     entryBlock := [] |}.
Definition gemm1_node : NodeProto :=
  {| op_type := cstr "Gemm"; input := [cstr "x"; cstr "w"]; output := [cstr "y"] |}.
Definition gemm3_state : FrontendGenImpl :=
  {| frontend_symbols_ :=
       AddMapping (AddMapping (AddMapping ∅ (cstr "a") (BlockArgument 0))
                     (cstr "b") (BlockArgument 1)) (cstr "c") (BlockArgument 2);
     entryBlock := [] |}.
Definition gemm3_node : NodeProto :=
  {| op_type := cstr "Gemm"; input := [cstr "a"; cstr "b"; cstr "c"];
     output := [cstr "y"] |}.

(** The product of the extents, before any wrapping. *)
Definition product (extents : list Z) : Z := foldr Z.mul 1%Z extents.

(** The dense row-major strides that a shape implies: the stride of a
    dimension is the product of the extents of all faster-varying
    dimensions (as an [int64_t]). *)
Fixpoint dense_strides (shape : list Z) : list Z :=
  match shape with
  | [] => []
  | _ :: faster => wrap64 (product faster) :: dense_strides faster
  end.

(** The next [n] calls of [malloc] succeed. *)
Definition mallocs_succeed (n : nat) (h : heap) : Prop :=
  Forall (λ b, b = true) (take n (oracle h)).

(** A descriptor at [tensor] whose shape and stride arrays are live,
    separate blocks with the given contents. *)
Definition tensor_at (h : heap) (tensor : ptr) (t : OMTensor) (sh st : list Z) : Prop :=
  blocks h !! tensor = Some (Struct t)
  ∧ blocks h !! _shape t = Some (Cells sh)
  ∧ blocks h !! _stride t = Some (Cells st)
  ∧ _shape t ≠ _stride t.

Definition empty_heap : heap := mkHeap ∅ 0%N [].

(** The heap a run ends in. *)
Definition heap_after {A} (r : res (A * heap)) : heap :=
  match r with
  | Ok (_, h) => h
  | Fail _ => empty_heap
  end.

(** A heap with two data buffers, at addresses 1 and 2, and the two
    descriptors that [omTensorCreate] makes for them, at addresses 3 and 6. *)
Definition two_tensors (aShape aData bShape bData : list Z) : heap :=
  heap_after
    ((do _ <- omTensorCreate 1%N aShape (Z.of_nat (length aShape)) ONNX_TYPE_INT64;
      omTensorCreate 2%N bShape (Z.of_nat (length bShape)) ONNX_TYPE_INT64)
       (mkHeap (<[2%N := Cells bData]> (<[1%N := Cells aData]> ∅)) 2%N [])).

(** What [omTensorAreTwoOmtsClose] writes for a shape mismatch. *)
Definition shape_mismatch_report (aShape bShape : list Z) : list event :=
  [EStr "Shape mismatch "; EVec aShape ","; EStr " != "; EVec bShape ","].



(** A data buffer of six elements, at address 1. *)
Definition owned_buffer_heap : heap :=
  mkHeap (<[1%N := Cells [0; 0; 0; 0; 0; 0]%Z]> ∅) 1%N [].

(** Create an owning descriptor of shape [2, 3] for it, then destroy it. *)
Definition create_then_destroy : M heap ptr :=
  do tensor <- omTensorCreateWithOwnership 1%N [2; 3]%Z 2 ONNX_TYPE_INT64 1;
  do _ <- omTensorDestroy tensor;
  ret tensor.

(** The same with the destructor in place of [omTensorDestroy]. *)
Definition create_then_destruct : M heap ptr :=
  do tensor <- omTensorCreateWithOwnership 1%N [2; 3]%Z 2 ONNX_TYPE_INT64 1;
  do _ <- OMTensor_destructor tensor;
  ret tensor.

(** Two descriptors of shapes [2] and [3], at addresses 1 and 4, whose data
    pointers (100 and 200) point at nothing. *)
Definition mismatch_heap : heap :=
  heap_after
    ((do _ <- omTensorCreate 100%N [2%Z] 1 ONNX_TYPE_INT64;
      omTensorCreate 200%N [3%Z] 1 ONNX_TYPE_INT64) empty_heap).

(** A dense descriptor of shape [2, 3, 4] at address 1 (shape array at 2,
    stride array at 3), and the same after its strides were overwritten. *)
Definition dense_example : heap :=
  heap_after (omTensorCreate 7%N [2; 3; 4]%Z 3 ONNX_TYPE_FLOAT empty_heap).

Definition corrupted_example : heap :=
  heap_after
    ((do tensor <- omTensorCreate 7%N [2; 3; 4]%Z 3 ONNX_TYPE_FLOAT;
      omTensorSetStrides tensor [12; 4; 2]%Z) empty_heap).

(** Pairs of one-dimensional tensors to compare: descriptors at addresses 3
    and 6, data at 1 and 2. *)
Definition close_example : heap := two_tensors [2]%Z [10; 20]%Z [2]%Z [10; 21]%Z.

(** A node with an op-code the importer does not know and an input that
    nothing defines. *)
Definition frobnicate_state : FrontendGenImpl :=
  {| frontend_symbols_ := AddMapping ∅ (cstr "x") (BlockArgument 0);
     entryBlock := [] |}.
Definition frobnicate_node : NodeProto :=
  {| op_type := cstr "Frobnicate"; input := [cstr "ghost"; cstr "x"];
     output := [cstr "y"] |}.

(** Add nodes with an input that nothing defines: between two defined
    inputs, and after the only defined one. *)
Definition ghost_add_node : NodeProto :=
  {| op_type := cstr "Add"; input := [cstr "x"; cstr "ghost"; cstr "x"];
     output := [cstr "y"] |}.
Definition starved_add_node : NodeProto :=
  {| op_type := cstr "Add"; input := [cstr "x"; cstr "ghost"];
     output := [cstr "y"] |}.

Definition identical_example : heap := two_tensors [1]%Z [4]%Z [1]%Z [4]%Z.
Definition zero_example : heap := two_tensors [1]%Z [0]%Z [1]%Z [0]%Z.
Definition negative_example : heap := two_tensors [1]%Z [-1]%Z [1]%Z [-3]%Z.

(** ** More of the importer: types, outputs and the whole graph *)

(** Modelled from the spec: the enumeration [onnx::TensorProto_DataType] of
    [onnx.pb.h], which is not among the sources; these are the codes that
    [TypeConvert] switches on. *)
Inductive TensorProto_DataType :=
  | TensorProto_DataType_FLOAT16
  | TensorProto_DataType_FLOAT
  | TensorProto_DataType_DOUBLE
  | TensorProto_DataType_INT8
  | TensorProto_DataType_UINT8
  | TensorProto_DataType_INT16
  | TensorProto_DataType_UINT16
  | TensorProto_DataType_INT32
  | TensorProto_DataType_UINT32
  | TensorProto_DataType_INT64
  | TensorProto_DataType_UINT64
  | TensorProto_DataType_BOOL
  | TensorProto_DataType_STRING
  | TensorProto_DataType_COMPLEX64
  | TensorProto_DataType_COMPLEX128
  | TensorProto_DataType_UNDEFINED.

(** The scalar types [builder_] hands out: [getF16Type], [getF32Type],
    [getF64Type] and [getIntegerType(width)]; [getI1Type] is the integer
    type of width 1. *)
Inductive ScalarType :=
  | FloatType (width : Z)
  | IntegerType (width : Z).

(** [TypeConvert]; [None] is [nullptr]. *)
Definition TypeConvert (intype : TensorProto_DataType) : option ScalarType :=
  match intype with
  | TensorProto_DataType_FLOAT16 => Some (FloatType 16)
  | TensorProto_DataType_FLOAT => Some (FloatType 32)
  | TensorProto_DataType_DOUBLE => Some (FloatType 64)
  | TensorProto_DataType_INT8
  | TensorProto_DataType_UINT8 => Some (IntegerType 8)
  | TensorProto_DataType_INT16
  | TensorProto_DataType_UINT16 => Some (IntegerType 16)
  | TensorProto_DataType_INT32
  | TensorProto_DataType_UINT32 => Some (IntegerType 32)
  | TensorProto_DataType_INT64
  | TensorProto_DataType_UINT64 => Some (IntegerType 64)
  | TensorProto_DataType_BOOL => Some (IntegerType 1)
  | TensorProto_DataType_STRING
  | TensorProto_DataType_COMPLEX64
  | TensorProto_DataType_COMPLEX128
  | TensorProto_DataType_UNDEFINED => None
  end.

(** [mlir::RankedTensorType::get(tensor_dims, elementType)], as the pair it
    is made from. *)
Record RankedTensorType := {
  tensor_dims : list Z;
  elementType : option ScalarType
}.

(** A graph input: its [onnx::ValueInfoProto] with what the importer reads
    of [input.type().tensor_type()]: the element type code and, for each
    dimension of the shape, its [dim_value()] (0 when the dimension is
    symbolic or not set). *)
Record InputProto := {
  value_info : ValueInfoProto;
  tensor_elem_type : TensorProto_DataType;
  dim_values : list Z
}.

(** One iteration of the loop of [ImportInputTensorType]:
    [int dim_numeric_size = dim_value] keeps the low 32 bits. *)
Definition import_dim (dims : list Z) (dim_value : Z) : list Z :=
  if decide (dim_value ≠ 0%Z) then
    let dim_numeric_size := wrap 32 dim_value in
    if (0 <? dim_numeric_size)%Z then dims ++ [dim_numeric_size]
    else dims ++ [(-1)%Z]
  else dims ++ [(-1)%Z].

Definition ImportInputTensorType (inp : InputProto) (arg_types : list RankedTensorType)
  : list RankedTensorType :=
  let dims := foldl import_dim [] (dim_values inp) in
  let elementType := TypeConvert (tensor_elem_type inp) in
  arg_types ++ [ {| tensor_dims := dims; elementType := elementType |} ].

(** The output loop of [ImportGraph], for the returned values. *)
Fixpoint ImportOutputs (outputs : list ValueInfoProto) (ret_vals : list Value)
  : Import (list Value) :=
  match outputs with
  | [] => ret ret_vals
  | out :: outputs' =>
      do ret_vals' <- ImportOutputTensor out ret_vals;
      ImportOutputs outputs' ret_vals'
  end.

(** [onnx::GraphProto], as far as [ImportGraph] reads it. *)
Record GraphProto := {
  graph_input : list InputProto;
  graph_node : list NodeProto;
  graph_output : list ValueInfoProto
}.

(** The type of a value: that of the block argument, or the result type
    the operation was built with. *)
Inductive ValueType :=
  | RankedType (t : RankedTensorType)
  | OtherType (t : MlirType).

Definition result_type (op : Operation) (i : nat) : option MlirType :=
  match op with
  | ONNXAddOp ty _ _ | ONNXMatMulOp ty _ _ | ONNXFullGemmOp ty _ _ _
  | ONNXGemmOp ty _ => if decide (i = 0) then Some ty else None
  | GenericOperation _ types _ => types !! i
  end.

(** [tensor_val->getType()]. *)
Definition getType (arg_types : list RankedTensorType) (block : list Operation)
    (v : Value) : res ValueType :=
  match v with
  | BlockArgument i =>
      match arg_types !! i with
      | Some t => Ok (RankedType t)
      | None => Fail OutOfBounds
      end
  | OpResult op i =>
      match block !! op ≫= (λ o, result_type o i) with
      | Some t => Ok (OtherType t)
      | None => Fail OutOfBounds
      end
  end.

(** The function [ImportGraph] leaves in the module: its name, its type,
    the operations of its entry block and the operands of the final
    [mlir::ReturnOp]. *)
Record FuncOp := {
  sym_name : cstring;
  func_inputs : list RankedTensorType;
  func_results : list ValueType;
  func_body : list Operation;
  return_operands : list Value
}.

(** [ImportGraph] on a fresh importer. *)
Definition ImportGraph (graph : GraphProto) (fname : cstring) : Import FuncOp :=
  (* Import the input tensor types. *)
  let arg_types := foldl (λ acc inp, ImportInputTensorType inp acc) [] (graph_input graph) in
  (* zip(graph.input(), entryBlock.getArguments()) *)
  do _ <- ImportInputs (value_info <$> graph_input graph) 0;
  (* import nodes in the graph *)
  do _ <- ImportNodes (graph_node graph);
  (* Import the output tensors *)
  do ret_vals <- ImportOutputs (graph_output graph) [];
  do s <- get;
  do ret_types <- reading (λ s,
      foldr (λ v acc, try t <- getType arg_types (entryBlock s) v;
                      try ts <- acc; Ok (t :: ts)) (Ok []) ret_vals);
  ret {| sym_name := fname; func_inputs := arg_types; func_results := ret_types;
         func_body := entryBlock s; return_operands := ret_vals |}.

(** ** More of the tensor runtime: setters, getters and the deprecated creator *)

Definition with_allocatedPtr (t : OMTensor) (p : ptr) : OMTensor :=
  mkOMTensor p (_alignedPtr t) (_offset t) (_shape t) (_stride t)
    (_rank t) (_dataType t) (_owning t).
Definition with_alignedPtr (t : OMTensor) (p : ptr) : OMTensor :=
  mkOMTensor (_allocatedPtr t) p (_offset t) (_shape t) (_stride t)
    (_rank t) (_dataType t) (_owning t).

(** [omTensorGetDataPtr] and [omTensorGetAllocatedPtr]. *)
Definition omTensorGetDataPtr (h : heap) (tensor : ptr) : res ptr :=
  try t <- load_tensor h tensor; Ok (_alignedPtr t).
Definition omTensorGetAllocatedPtr (h : heap) (tensor : ptr) : res ptr :=
  try t <- load_tensor h tensor; Ok (_allocatedPtr t).

(** [omTensorSetPtr]. *)
Definition omTensorSetPtr (tensor : ptr) (owning : Z) (allocatedPtr alignedPtr : ptr)
  : M heap unit :=
  do t <- reading (λ h, load_tensor h tensor);
  do _ <- (if decide (_owning t ≠ 0%Z)
           then (* If we own the allocated buffer, free it first. *)
                free (_allocatedPtr t)
           else ret tt);
  do _ <- update_tensor tensor (λ t, with_owning t owning);
  do _ <- update_tensor tensor (λ t, with_allocatedPtr t allocatedPtr);
  if decide (alignedPtr ≠ NULL)
  then update_tensor tensor (λ t, with_alignedPtr t alignedPtr)
  else update_tensor tensor (λ t, with_alignedPtr t allocatedPtr).




(** ** Specification-side definitions for the further properties *)

(** The characters [legalize_name] turns into an underscore, and the
    underscore itself. *)
Definition separator (c : ascii) : Prop :=
  c = "/"%char ∨ c = "-"%char ∨ c = "_"%char.

(** Two names that differ only in which separator stands where. *)
Definition same_up_to_separators (s s' : cstring) : Prop :=
  Forall2 (λ c d, c = d ∨ (separator c ∧ separator d)) s s'.

(** The table after a sequence of [AddMapping] calls on an empty one. *)
Definition table_of (calls : list (cstring * Value)) : symbol_map :=
  foldl (λ m call, AddMapping m call.1 call.2) ∅ calls.

(** The legalized names of a list of graph inputs or outputs. *)
Definition legalized_names (infos : list ValueInfoProto) : list cstring :=
  (λ info, legalize_name (name info)) <$> infos.

Definition duplicate_input_assertion : fault :=
  AssertionFailed "Found duplicate legalized input tensor names.".
Definition output_not_found_assertion : fault :=
  AssertionFailed "Output tensor not found".


(** The value of the first call, if any, whose name legalizes to [k]. *)
Definition first_call (k : cstring) (calls : list (cstring * Value)) : option Value :=
  snd <$> head (filter (λ call : cstring * Value, legalize_name call.1 = k) calls).

(** The operands an operation was built with. *)
Definition operands (op : Operation) : list Value :=
  match op with
  | ONNXAddOp _ a b | ONNXMatMulOp _ a b => [a; b]
  | ONNXFullGemmOp _ a b c => [a; b; c]
  | ONNXGemmOp _ l | GenericOperation _ _ l => l
  end.

(** The table after the results of operation [op] were bound to [outs],
    the first of them being result [i]. *)
Fixpoint bound_results (m : symbol_map) (op : nat) (outs : list cstring) (i : nat)
  : symbol_map :=
  match outs with
  | [] => m
  | o :: outs' =>
      bound_results (AddMapping m (legalize_name o) (OpResult op i)) op outs' (S i)
  end.

(** A value that exists in a block of [nargs] arguments holding the
    operations [block]: one of the [nargs] block arguments, or a result that
    one of these operations has. *)
Definition defined_before (nargs : nat) (block : list Operation) (v : Value) : Prop :=
  match v with
  | BlockArgument i => i < nargs
  | OpResult op i => ∃ o, block !! op = Some o ∧ is_Some (result_type o i)
  end.

(** Every bound value exists, and every operation takes its operands from
    the block arguments and from results of the operations before it. *)
Definition well_formed (nargs : nat) (s : FrontendGenImpl) : Prop :=
  (∀ k v, frontend_symbols_ s !! k = Some v →
          defined_before nargs (entryBlock s) v)
  ∧ (∀ i op, entryBlock s !! i = Some op →
             Forall (defined_before nargs (take i (entryBlock s))) (operands op)).


(** Example graphs. *)
Definition input_x : ValueInfoProto := {| name := cstr "x" |}.
Definition input_slash : ValueInfoProto := {| name := cstr "a/b" |}.
Definition input_dash : ValueInfoProto := {| name := cstr "a-b" |}.
Definition add_node : NodeProto :=
  {| op_type := cstr "Add"; input := [cstr "x"; cstr "x"; cstr "x"];
     output := [cstr "y"; cstr "z"] |}.
Definition relu_node : NodeProto :=
  {| op_type := cstr "Relu"; input := [cstr "y"]; output := [cstr "out:0"; cstr "out:1"] |}.
Definition x_state : FrontendGenImpl :=
  {| frontend_symbols_ := AddMapping ∅ (cstr "x") (BlockArgument 0);
     entryBlock := [] |}.


(** The signed and the unsigned code of one integer width. *)
Definition same_width_integers (t t' : TensorProto_DataType) : Prop :=
  match t, t' with
  | TensorProto_DataType_INT8, TensorProto_DataType_UINT8
  | TensorProto_DataType_UINT8, TensorProto_DataType_INT8
  | TensorProto_DataType_INT16, TensorProto_DataType_UINT16
  | TensorProto_DataType_UINT16, TensorProto_DataType_INT16
  | TensorProto_DataType_INT32, TensorProto_DataType_UINT32
  | TensorProto_DataType_UINT32, TensorProto_DataType_INT32
  | TensorProto_DataType_INT64, TensorProto_DataType_UINT64
  | TensorProto_DataType_UINT64, TensorProto_DataType_INT64 => True
  | _, _ => False
  end.


(** An example graph: one input, an Add of it with itself, a Relu of the
    sum; the outputs are the Relu result and the input itself. *)
Definition example_graph : GraphProto :=
  {| graph_input := [ {| value_info := {| name := cstr "x" |};
                         tensor_elem_type := TensorProto_DataType_FLOAT;
                         dim_values := [1; 3]%Z |} ];
     graph_node := [ {| op_type := cstr "Add"; input := [cstr "x"; cstr "x"];
                        output := [cstr "sum"] |};
                     {| op_type := cstr "Relu"; input := [cstr "sum"];
                        output := [cstr "y"] |} ];
     graph_output := [ {| name := cstr "y" |}; {| name := cstr "x" |} ] |}.


(** An owning descriptor of shape [2, 3] at address 2 (shape array at 3,
    stride array at 4) for the data buffer at address 1. *)
Definition owned_example : heap :=
  heap_after (omTensorCreateWithOwnership 1%N [2; 3]%Z 2 ONNX_TYPE_INT64 1
                owned_buffer_heap).

(** A heap in which the second allocation will fail. *)
Definition failing_heap : heap := mkHeap ∅ 0%N [true; false].

(** An empty tensor compared with another one of the same shape, and one
    tensor compared with itself. *)
Definition empty_example : heap := two_tensors [3; 0]%Z [] [3; 0]%Z [].
Definition self_example : heap := two_tensors [2]%Z [5; -7]%Z [2]%Z [1; 1]%Z.

(** The pair of [close_example] after the strides of the first tensor were
    overwritten. *)
Definition nondense_example : heap :=
  heap_after (omTensorSetStrides 3%N [5]%Z close_example).

(** Two [int64_t] tensors of one element whose difference is 2^32. *)
Definition truncation_example : heap :=
  two_tensors [1]%Z [5000000000]%Z [1]%Z [705032704]%Z.

(* ===================================================================== *)
(** * Part II: theorems                                                   *)
(* ===================================================================== *)

(** ** The name legalizer *)

Section Legalizer.

Lemma starts_with_length (from str : cstring) :
  starts_with from str = true → length from ≤ length str.
Proof.
  revert str. induction from as [|c from IH]; intros [|d str]; simpl; try lia; try done.
  case_decide; [|done]. intros Hs%IH. lia.
Qed.

Lemma find_here_bound (str from : cstring) (k : nat) :
  find_here str from = Some k → k + length from ≤ length str.
Proof.
  revert k. induction str as [|d str IH]; intros k; simpl.
  - destruct (starts_with from []) eqn:E; [|done].
    intros [= <-]. apply starts_with_length in E. simpl in *. lia.
  - destruct (starts_with from (d :: str)) eqn:E.
    + intros [= <-]. apply starts_with_length in E. simpl in *. lia.
    + destruct (find_here str from) as [j|] eqn:F; [|done].
      simpl. intros [= <-]. specialize (IH j eq_refl). lia.
Qed.

Lemma string_find_bound (str from : cstring) (pos p : nat) :
  string_find str from pos = Some p → pos ≤ p ∧ p + length from ≤ length str.
Proof.
  unfold string_find. case_decide as Hpos; [|done].
  destruct (find_here (drop pos str) from) as [k|] eqn:F; [|done].
  simpl. intros [= <-]. apply find_here_bound in F.
  rewrite length_drop in F. lia.
Qed.

(** The loop of [replaceAll] ends: with a nonempty [from], each iteration
    shortens what is left to scan. *)
Lemma replaceAll_loop_terminates (fuel : nat) (str from to : cstring) (pos : nat) :
  from ≠ [] → pos ≤ length str → length str - pos < fuel →
  is_Some (replaceAll_loop fuel str from to pos).
Proof.
  intros Hne. revert str pos.
  induction fuel as [|fuel IH]; intros str pos Hpos Hfuel; [lia|].
  simpl. destruct (string_find str from pos) as [p|] eqn:F; [|by eexists].
  apply string_find_bound in F as [Hp Hlen].
  assert (0 < length from) by (destruct from; [done | simpl; lia]).
  apply IH; unfold string_replace; rewrite !length_app, length_take, length_drop; lia.
Qed.

(** So the fuel [replaceAll] gives its loop is enough: the result is the
    string the loop ends with. *)
Lemma replaceAll_is_loop_result (str from to : cstring) :
  from ≠ [] →
  replaceAll_loop (S (length str)) str from to 0 = Some (replaceAll str from to).
Proof.
  intros Hne. unfold replaceAll. rewrite decide_False by done.
  destruct (replaceAll_loop_terminates (S (length str)) str from to 0 Hne)
    as [r ->]; [lia | lia | done].
Qed.

Lemma starts_with_single (c : ascii) (str : cstring) :
  starts_with [c] str = true ↔ ∃ str', str = c :: str'.
Proof.
  destruct str as [|d str]; simpl.
  - split; [done | intros [? ?]; done].
  - case_decide; subst; split; try done; eauto.
    intros [? [= ]]. congruence.
Qed.

Lemma find_here_single (c : ascii) (str : cstring) :
  match find_here str [c] with
  | Some k => ∃ a b, str = a ++ c :: b ∧ length a = k ∧ c ∉ a
  | None => c ∉ str
  end.
Proof.
  induction str as [|d str IH].
  - simpl. apply not_elem_of_nil.
  - cbn [find_here]. destruct (starts_with [c] (d :: str)) eqn:E.
    + apply starts_with_single in E as [str' [= -> ->]].
      exists [], str'. split_and!; [done..|apply not_elem_of_nil].
    + assert (d ≠ c) as Hd.
      { intros ->. assert (starts_with [c] (c :: str) = true) as E'
          by (apply starts_with_single; eauto). congruence. }
      destruct (find_here str [c]) as [k|]; simpl.
      * destruct IH as (a & b & -> & <- & Ha).
        exists (d :: a), b. split_and!; [done..|].
        rewrite not_elem_of_cons. split; [congruence | done].
      * rewrite not_elem_of_cons. split; [congruence | done].
Qed.

Lemma flat_map_subst_id (c : ascii) (to a : cstring) :
  c ∉ a → flat_map (subst_char c to) a = a.
Proof.
  induction a as [|x a IH]; [done|].
  rewrite not_elem_of_cons. intros [Hx Ha]. simpl.
  unfold subst_char at 1. rewrite decide_False by congruence.
  simpl. by rewrite IH.
Qed.

Lemma replaceAll_loop_single (fuel : nat) (c : ascii) (to pre rest : cstring) :
  length rest < fuel →
  replaceAll_loop fuel (pre ++ rest) [c] to (length pre)
  = Some (pre ++ flat_map (subst_char c to) rest).
Proof.
  revert pre rest. induction fuel as [|fuel IH]; intros pre rest Hfuel; [lia|].
  simpl. unfold string_find.
  rewrite decide_True by (rewrite length_app; lia).
  rewrite drop_app_length.
  pose proof (find_here_single c rest) as Hf.
  destruct (find_here rest [c]) as [k|]; simpl.
  - destruct Hf as (a & b & -> & <- & Ha).
    assert (string_replace (pre ++ a ++ c :: b) (length pre + length a) 1 to
            = (pre ++ a ++ to) ++ b) as ->.
    { unfold string_replace.
      replace (pre ++ a ++ c :: b) with ((pre ++ a) ++ c :: b) by by rewrite <-app_assoc.
      rewrite <-(length_app pre a), take_app_length.
      replace (length (pre ++ a) + 1) with (length ((pre ++ a) ++ [c]))
        by (rewrite !length_app; simpl; lia).
      replace ((pre ++ a) ++ c :: b) with (((pre ++ a) ++ [c]) ++ b)
        by (by rewrite <-!app_assoc).
      rewrite drop_app_length. by rewrite <-!app_assoc. }
    replace (length pre + length a + length to) with (length (pre ++ a ++ to))
      by (rewrite !length_app; lia).
    rewrite IH by (rewrite length_app in Hfuel; simpl in Hfuel; lia).
    f_equal. rewrite flat_map_app. simpl.
    rewrite (flat_map_subst_id c to a) by done.
    unfold subst_char at 2. rewrite decide_True by done.
    by rewrite <-!app_assoc.
  - by rewrite flat_map_subst_id.
Qed.

Lemma replaceAll_single (c : ascii) (to str : cstring) :
  replaceAll str [c] to = flat_map (subst_char c to) str.
Proof.
  unfold replaceAll. rewrite decide_False by done.
  pose proof (replaceAll_loop_single (S (length str)) c to [] str) as H.
  change ([] ++ str) with str in H. change (length []) with 0 in H.
  rewrite H by lia. done.
Qed.

Lemma legalize_name_unfold (s : cstring) :
  legalize_name s =
  match legalize_body s with
  | c0 :: _ => if isdigit c0 then "n"%char :: legalize_body s else legalize_body s
  | [] => []
  end.
Proof.
  unfold legalize_name, legalize_body.
  change (cstr ":") with [":"%char]. rewrite replaceAll_single.
  by destruct (flat_map _ _).
Qed.

Lemma legalize_body_legal (s : cstring) : Forall legal_char (legalize_body s).
Proof.
  unfold legalize_body, std_replace.
  induction s as [|c s IH]; [constructor|].
  cbn [fmap list_fmap flat_map]. apply Forall_app. split; [|exact IH].
  unfold subst_char, legal_char. repeat case_decide; subst;
    repeat first [apply List.Forall_cons | apply List.Forall_nil | split];
    congruence.
Qed.

Lemma legalize_body_id (s : cstring) :
  Forall legal_char s → legalize_body s = s.
Proof.
  unfold legalize_body, std_replace.
  induction 1 as [|c s Hc _ IH]; [done|]. destruct Hc as (H1 & H2 & H3).
  cbn [fmap list_fmap flat_map]. rewrite IH.
  unfold subst_char. by rewrite !decide_False by (repeat case_decide; congruence).
Qed.

Lemma legalize_name_legal (s : cstring) : Forall legal_char (legalize_name s).
Proof.
  rewrite legalize_name_unfold. pose proof (legalize_body_legal s) as H.
  destruct (legalize_body s) as [|c0 r]; [constructor|].
  destruct (isdigit c0); [|done].
  apply Forall_cons. split; [|done]. unfold legal_char. split_and!; congruence.
Qed.

Lemma legalize_name_head (s : cstring) (c : ascii) :
  head (legalize_name s) = Some c → isdigit c = false.
Proof.
  rewrite legalize_name_unfold.
  destruct (legalize_body s) as [|c0 r]; [done|].
  destruct (isdigit c0) eqn:E; simpl; intros [= <-]; [reflexivity | done].
Qed.

Lemma legalize_name_fixpoint (s : cstring) :
  Forall legal_char s → (∀ c, head s = Some c → isdigit c = false) →
  legalize_name s = s.
Proof.
  intros Hl Hh. rewrite legalize_name_unfold, legalize_body_id by done.
  destruct s as [|c0 r]; [done|]. by rewrite (Hh c0).
Qed.

Lemma legalize_name_involutive (s : cstring) :
  legalize_name (legalize_name s) = legalize_name s.
Proof.
  apply legalize_name_fixpoint; [apply legalize_name_legal | apply legalize_name_head].
Qed.

(** C7.  Legalizing twice is legalizing once, and a legalized name has no
    '/', no '-', no ':' and does not start with a digit. *)
Theorem legalize_name_idempotent (s : cstring) :
  legalize_name (legalize_name s) = legalize_name s
  ∧ ("/"%char ∉ legalize_name s)
  ∧ ("-"%char ∉ legalize_name s)
  ∧ (":"%char ∉ legalize_name s)
  ∧ (∀ c, head (legalize_name s) = Some c → isdigit c = false).
Proof.
  pose proof (legalize_name_legal s) as Hl.
  split_and!.
  - apply legalize_name_involutive.
  - intros Hin. by destruct (proj1 (Forall_forall _ _) Hl _ Hin) as (? & ? & ?).
  - intros Hin. by destruct (proj1 (Forall_forall _ _) Hl _ Hin) as (? & ? & ?).
  - intros Hin. by destruct (proj1 (Forall_forall _ _) Hl _ Hin) as (? & ? & ?).
  - apply legalize_name_head.
Qed.

End Legalizer.

(** ** The symbol table *)

Section SymbolTable.
Implicit Types (m : symbol_map) (s : cstring) (v : Value).

Lemma ContainKey_spec m s : ContainKey m s = true ↔ is_Some (m !! s).
Proof.
  unfold ContainKey, map_count. destruct (m !! s); simpl; split; eauto; try done.
Qed.

Lemma ContainKey_false m s : ContainKey m s = false ↔ m !! s = None.
Proof.
  unfold ContainKey, map_count. by destruct (m !! s).
Qed.

Lemma AddMapping_fresh m s v :
  m !! legalize_name s = None → AddMapping m s v = <[legalize_name s := v]> m.
Proof. unfold AddMapping, map_emplace. by intros ->. Qed.

Lemma AddMapping_bound m s v v0 :
  m !! legalize_name s = Some v0 → AddMapping m s v = m.
Proof. unfold AddMapping, map_emplace. by intros ->. Qed.

Lemma AddMapping_then_lookup m s v :
  m !! legalize_name s = None → GetTensorByOnnxName (AddMapping m s v) s = Ok v.
Proof.
  intros H. rewrite AddMapping_fresh by done.
  unfold GetTensorByOnnxName, map_at. by rewrite lookup_insert_eq.
Qed.

Lemma legalized_keys_empty : legalized_keys ∅.
Proof. intros k v H. by rewrite lookup_empty in H. Qed.

Lemma legalized_keys_AddMapping m s v :
  legalized_keys m → legalized_keys (AddMapping m s v).
Proof.
  intros Hm k w. unfold AddMapping, map_emplace.
  destruct (m !! legalize_name s) eqn:E; [apply Hm|].
  rewrite lookup_insert. case_decide as Hk; [|apply Hm].
  intros _. subst k. apply legalize_name_involutive.
Qed.

(** C10.  [ContainKey] looks its argument up as it is, [AddMapping] and
    [GetTensorByOnnxName] legalize theirs: after a raw name that is not
    its own legalized form has been bound, [ContainKey] denies the raw
    name, admits the legalized one, and the lookup by raw name answers. *)
Theorem ContainKey_does_not_legalize m s v :
  legalized_keys m →
  legalize_name s ≠ s →
  m !! legalize_name s = None →
  ContainKey (AddMapping m s v) s = false
  ∧ ContainKey (AddMapping m s v) (legalize_name s) = true
  ∧ GetTensorByOnnxName (AddMapping m s v) s = Ok v.
Proof.
  intros Hm Hs Hfresh. split_and!.
  - apply ContainKey_false.
    destruct (AddMapping m s v !! s) as [w|] eqn:E; [|done].
    apply (legalized_keys_AddMapping m s v Hm) in E. done.
  - apply ContainKey_spec. rewrite AddMapping_fresh by done.
    rewrite lookup_insert_eq. by eexists.
  - by apply AddMapping_then_lookup.
Qed.

Lemma ContainKey_does_not_legalize_witness :
  let m := AddMapping ∅ (cstr "x") (BlockArgument 0) in
  let s := cstr "conv1/kernel:0" in
  let v := OpResult 0 0 in
  legalized_keys m
  ∧ legalize_name s ≠ s
  ∧ m !! legalize_name s = None
  ∧ ContainKey (AddMapping m s v) s = false
  ∧ ContainKey (AddMapping m s v) (legalize_name s) = true
  ∧ GetTensorByOnnxName (AddMapping m s v) s = Ok v.
Proof.
  intros m s v.
  assert (legalized_keys m) as H1
    by apply legalized_keys_AddMapping, legalized_keys_empty.
  assert (legalize_name s ≠ s) as H2 by (vm_compute; discriminate).
  assert (m !! legalize_name s = None) as H3 by (vm_compute; reflexivity).
  split; [exact H1|]. split; [exact H2|]. split; [exact H3|].
  exact (ContainKey_does_not_legalize m s v H1 H2 H3).
Defined.

End SymbolTable.

(** ** Node import *)

Section NodeImport.
Implicit Types (s : FrontendGenImpl) (node : NodeProto).

Lemma resolve_inputs_spec (items : list cstring) (inputs : list Value) s :
  resolve_inputs items inputs s
  = Ok (inputs ++ resolved (frontend_symbols_ s) items, s).
Proof.
  revert inputs. induction items as [|item items IH]; intros inputs.
  - simpl. unfold ret. by rewrite app_nil_r.
  - cbn [resolve_inputs]. unfold bind at 1, get. unfold resolved. cbn [omap list_omap].
    destruct (frontend_symbols_ s !! legalize_name item) as [v|] eqn:E.
    + rewrite (proj2 (ContainKey_spec _ _)) by (rewrite E; eauto).
      unfold bind, reading, GetTensorByOnnxName, map_at. rewrite E.
      rewrite IH. by rewrite <-app_assoc.
    + rewrite (proj2 (ContainKey_false _ _)) by done. apply IH.
Qed.

Lemma bind_results_ok (op : nat) (outputs : list cstring) (i : nat) s :
  ∃ m, bind_results op outputs i s
       = Ok (tt, {| frontend_symbols_ := m; entryBlock := entryBlock s |}).
Proof.
  revert i s. induction outputs as [|o outputs IH]; intros i s.
  - exists (frontend_symbols_ s). by destruct s.
  - cbn [bind_results]. unfold bind, add_symbol, modify.
    edestruct IH as [m ->]. by exists m.
Qed.

(** A node is imported from its op-code, its outputs and the operands its
    inputs resolve to, and from nothing else. *)
Lemma ImportNode_same_operands s node node' :
  op_type node' = op_type node →
  output node' = output node →
  resolved (frontend_symbols_ s) (input node')
  = resolved (frontend_symbols_ s) (input node) →
  ImportNode node' s = ImportNode node s.
Proof.
  intros Hop Hout Hres.
  assert (∀ (m : Import (list Value)) (k : list Value → Import unit) a,
            m s = Ok (a, s) → bind m k s = k a s) as Hbind.
  { intros m k a H. unfold bind. by rewrite H. }
  pose proof (resolve_inputs_spec (input node) [] s) as H1.
  pose proof (resolve_inputs_spec (input node') [] s) as H2.
  cbn [app] in H1, H2. rewrite Hres in H2.
  unfold ImportNode. rewrite (Hbind _ _ _ H1), (Hbind _ _ _ H2).
  by rewrite Hop, Hout.
Qed.

(** The outcome of [ImportNode], for every op-code: the two unchecked
    accesses are its only faults, and everywhere else one operation is
    added, whose operands are the resolved ones. *)
Lemma ImportNode_outcome s node :
  (∀ f, ImportNode node s = Fail f →
        f = OutOfBounds ∧ reads_past_the_end (frontend_symbols_ s) node)
  ∧ (reads_past_the_end (frontend_symbols_ s) node →
     ImportNode node s = Fail OutOfBounds)
  ∧ (¬ reads_past_the_end (frontend_symbols_ s) node →
     ∃ m op,
       ImportNode node s
       = Ok (tt, {| frontend_symbols_ := m; entryBlock := entryBlock s ++ [op] |})
       ∧ operands op
         = if decide (op_type node = cstr "Add" ∨ op_type node = cstr "MatMul")
           then take 2 (resolved (frontend_symbols_ s) (input node))
           else resolved (frontend_symbols_ s) (input node)).
Proof.
  unfold reads_past_the_end.
  remember (ImportNode node s) as r eqn:Er.
  unfold ImportNode, bind at 1 in Er. rewrite resolve_inputs_spec in Er.
  cbn [app] in Er.
  set (ins := resolved (frontend_symbols_ s) (input node)) in *.
  assert (∀ P : Prop, P →
    (∀ f, Fail (A := unit * FrontendGenImpl) OutOfBounds = Fail f → f = OutOfBounds ∧ P)
    ∧ (P → Fail (A := unit * FrontendGenImpl) OutOfBounds = Fail OutOfBounds)
    ∧ (¬ P → ∃ m op,
         Fail OutOfBounds
         = Ok (tt, {| frontend_symbols_ := m; entryBlock := entryBlock s ++ [op] |})
         ∧ operands op
           = if decide (op_type node = cstr "Add" ∨ op_type node = cstr "MatMul")
             then take 2 ins else ins)) as Hfails.
  { intros P HP. split_and!; [by intros f [= <-] | done | done]. }
  assert (∀ (P : Prop) m op, ¬ P →
    operands op
    = (if decide (op_type node = cstr "Add" ∨ op_type node = cstr "MatMul")
       then take 2 ins else ins) →
    (∀ f, Ok (tt, {| frontend_symbols_ := m; entryBlock := entryBlock s ++ [op] |})
          = Fail f → f = OutOfBounds ∧ P)
    ∧ (P → Ok (tt, {| frontend_symbols_ := m; entryBlock := entryBlock s ++ [op] |})
           = Fail OutOfBounds)
    ∧ (¬ P → ∃ m' op',
         Ok (tt, {| frontend_symbols_ := m; entryBlock := entryBlock s ++ [op] |})
         = Ok (tt, {| frontend_symbols_ := m'; entryBlock := entryBlock s ++ [op'] |})
         ∧ operands op'
           = if decide (op_type node = cstr "Add" ∨ op_type node = cstr "MatMul")
             then take 2 ins else ins)) as Hgoes.
  { intros P m op HP Hops. split_and!; [done | done | by eexists _, _]. }
  destruct (decide (op_type node = cstr "Add")) as [Hadd|Hadd];
    [|destruct (decide (op_type node = cstr "MatMul")) as [Hmm|Hmm];
      [|destruct (decide (op_type node = cstr "Gemm")) as [Hgemm|Hgemm]]].
  - destruct ins as [|a [|b l]] eqn:Ei; [| |destruct (output node) as [|o outs] eqn:Eo].
    + change (r = Fail OutOfBounds) in Er. subst r. apply Hfails.
      left. split; [by left | simpl; lia].
    + change (r = Fail OutOfBounds) in Er. subst r. apply Hfails.
      left. split; [by left | simpl; lia].
    + change (r = Fail OutOfBounds) in Er. subst r. apply Hfails.
      right. split; [by left | done].
    + unfold bind, reading, create, add_symbol, modify, index in Er. simpl in Er.
      subst r. apply Hgoes.
      * intros [[_ H]|[_ H]]; [simpl in H; lia | done].
      * by rewrite decide_True by (by left).
  - destruct ins as [|a [|b l]] eqn:Ei; [| |destruct (output node) as [|o outs] eqn:Eo].
    + change (r = Fail OutOfBounds) in Er. subst r. apply Hfails.
      left. split; [by right | simpl; lia].
    + change (r = Fail OutOfBounds) in Er. subst r. apply Hfails.
      left. split; [by right | simpl; lia].
    + change (r = Fail OutOfBounds) in Er. subst r. apply Hfails.
      right. split; [right; by left | done].
    + unfold bind, reading, create, add_symbol, modify, index in Er. simpl in Er.
      subst r. apply Hgoes.
      * intros [[_ H]|[_ H]]; [simpl in H; lia | done].
      * by rewrite decide_True by (by right).
  - assert (¬ (op_type node = cstr "Add" ∨ op_type node = cstr "MatMul")) as Hbin
      by (by intros [|]).
    destruct (output node) as [|o outs] eqn:Eo.
    + assert (r = Fail OutOfBounds) as ->.
      { rewrite Er. destruct (decide (length ins = 3)) as [H3|H3]; [|done].
        by destruct ins as [|a [|b [|c [|d l]]]]. }
      apply Hfails. right. split; [by right; right | done].
    + destruct (decide (length ins = 3)) as [H3|H3].
      * destruct ins as [|a [|b [|c [|d l]]]] eqn:Ei; try done.
        unfold bind, reading, create, add_symbol, modify, index in Er. simpl in Er.
        subst r. apply Hgoes.
        -- intros [[H _]|[_ H]]; done.
        -- by rewrite decide_False.
      * unfold bind, reading, create, add_symbol, modify, index in Er. simpl in Er.
        subst r. apply Hgoes.
        -- intros [[H _]|[_ H]]; done.
        -- by rewrite decide_False.
  - assert (¬ (op_type node = cstr "Add" ∨ op_type node = cstr "MatMul")) as Hbin
      by (by intros [|]).
    unfold bind at 1, create in Er.
    edestruct (bind_results_ok (length (entryBlock s)) (output node) 0) as [m Hm].
    rewrite Hm in Er. subst r. apply Hgoes.
    + intros [[H _]|[H _]]; [done | by destruct H as [|[|]]].
    + by rewrite decide_False.
Qed.

(** C3.  An input whose legalized name is unbound is left out of the
    operand list and nothing is reported.  The resolution loop cannot fail
    and yields the values of the bound inputs in their order.  At every
    position of the input list, and for a node of any op-code, the node is
    imported exactly as the node without the unbound input is.  The import
    never stops at a lookup or at an assertion: it goes on with the resolved
    operands (Add and MatMul take the first two, the other operations all
    of them), except where the code indexes a vector without a check, which
    is at an Add or MatMul node left with fewer than two operands and at an
    Add, MatMul or Gemm node without an output.  A node with an op-code
    other than Add, MatMul and Gemm is always imported, with the resolved
    list as operands. *)
Theorem unbound_inputs_are_dropped s node :
  resolve_inputs (input node) [] s
    = Ok (resolved (frontend_symbols_ s) (input node), s)
  ∧ (∀ pre item post,
       frontend_symbols_ s !! legalize_name item = None →
       resolve_inputs (pre ++ item :: post) [] s = resolve_inputs (pre ++ post) [] s)
  ∧ (∀ pre item post,
       input node = pre ++ item :: post →
       frontend_symbols_ s !! legalize_name item = None →
       ImportNode node s
       = ImportNode {| op_type := op_type node; input := pre ++ post;
                       output := output node |} s)
  ∧ ImportNode node s ≠ Fail OutOfRange
  ∧ (∀ msg, ImportNode node s ≠ Fail (AssertionFailed msg))
  ∧ (¬ reads_past_the_end (frontend_symbols_ s) node →
     ∃ m op,
       ImportNode node s
       = Ok (tt, {| frontend_symbols_ := m; entryBlock := entryBlock s ++ [op] |})
       ∧ operands op
         = if decide (op_type node = cstr "Add" ∨ op_type node = cstr "MatMul")
           then take 2 (resolved (frontend_symbols_ s) (input node))
           else resolved (frontend_symbols_ s) (input node))
  ∧ (reads_past_the_end (frontend_symbols_ s) node →
     ImportNode node s = Fail OutOfBounds)
  ∧ (op_type node ≠ cstr "Add" → op_type node ≠ cstr "MatMul" →
     op_type node ≠ cstr "Gemm" →
     ∃ m, ImportNode node s
          = Ok (tt, {| frontend_symbols_ := m;
                       entryBlock := entryBlock s ++
                         [GenericOperation (cstr "frontend." ++ op_type node)
                            ((λ _, f32tensor) <$> output node)
                            (resolved (frontend_symbols_ s) (input node))] |})).
Proof.
  destruct (ImportNode_outcome s node) as (Hfault & Hpast & Hgoes).
  split_and!.
  - by rewrite resolve_inputs_spec.
  - intros pre item post Hnone. rewrite !resolve_inputs_spec. unfold resolved.
    rewrite !omap_app. cbn [omap list_omap]. by rewrite Hnone.
  - intros pre item post Hin Hnone. symmetry.
    apply ImportNode_same_operands; [done | done |]. cbn [input].
    rewrite Hin. unfold resolved. rewrite !omap_app. cbn [omap list_omap].
    by rewrite Hnone.
  - intros H. by destruct (Hfault _ H).
  - intros msg H. by destruct (Hfault _ H).
  - exact Hgoes.
  - exact Hpast.
  - intros H1 H2 H3. unfold ImportNode, bind at 1.
    rewrite resolve_inputs_spec. cbn [app].
    rewrite !decide_False by done.
    unfold bind at 1, create.
    edestruct (bind_results_ok (length (entryBlock s)) (output node) 0) as [m ->].
    by exists m.
Qed.

(** C8, as the code has it.  A Gemm node (with an output to name) is
    imported as the three-operand operation exactly when three operands
    were resolved, and as the variadic one for every other count. *)
Theorem Gemm_variant_by_operand_count s node (o : cstring) (outs : list cstring) :
  op_type node = cstr "Gemm" →
  output node = o :: outs →
  ∃ m, ImportNode node s
       = Ok (tt, {| frontend_symbols_ := m;
                    entryBlock := entryBlock s ++
                      [match resolved (frontend_symbols_ s) (input node) with
                       | [a; b; c] => ONNXFullGemmOp f32tensor a b c
                       | operands => ONNXGemmOp f32tensor operands
                       end] |}).
Proof.
  intros Hop Hout. unfold ImportNode, bind at 1.
  rewrite resolve_inputs_spec. cbn [app]. rewrite Hop, Hout.
  rewrite decide_False by (vm_compute; discriminate).
  rewrite decide_False by (vm_compute; discriminate).
  rewrite decide_True by done.
  destruct (resolved (frontend_symbols_ s) (input node)) as [|a [|b [|c [|d l]]]];
    (rewrite decide_True by done) || (rewrite decide_False by (simpl; lia));
    eexists; reflexivity.
Qed.

(** After the drop, Add reads [inputs[0]] and [inputs[1]] whatever the size
    of [inputs]: with fewer than two resolved operands that is an access
    past the end of the vector. *)
Lemma Add_with_fewer_than_two_operands s node :
  op_type node = cstr "Add" →
  length (resolved (frontend_symbols_ s) (input node)) < 2 →
  ImportNode node s = Fail OutOfBounds.
Proof.
  intros Hop Hlen. unfold ImportNode, bind at 1.
  rewrite resolve_inputs_spec. cbn [app]. rewrite Hop.
  rewrite decide_True by done.
  destruct (resolved (frontend_symbols_ s) (input node)) as [|a [|b l]];
    [done | done | simpl in Hlen; lia].
Qed.

(** The unknown op-code scenario with an undefined input: the operand list
    is the one bound input. *)
Example unbound_input_example :
  ∃ m, ImportNode frobnicate_node frobnicate_state
       = Ok (tt, {| frontend_symbols_ := m;
                    entryBlock := [GenericOperation (cstr "frontend.Frobnicate")
                                     [f32tensor] [BlockArgument 0]] |})
       ∧ m !! cstr "y" = Some (OpResult 0 0).
Proof. eexists. split; [vm_compute; reflexivity | by vm_compute]. Qed.

(** An Add node with an undefined input between two defined ones is built
    from these two; an Add node whose second input is undefined is left with
    one operand and reads [inputs[1]] past the end. *)
Example unbound_input_of_Add_example :
  (∃ m, ImportNode ghost_add_node frobnicate_state
        = Ok (tt, {| frontend_symbols_ := m;
                     entryBlock := [ONNXAddOp f32tensor (BlockArgument 0)
                                      (BlockArgument 0)] |})
        ∧ m !! cstr "y" = Some (OpResult 0 0))
  ∧ ImportNode starved_add_node frobnicate_state = Fail OutOfBounds.
Proof.
  split; [|by vm_compute].
  eexists. split; [vm_compute; reflexivity | by vm_compute].
Qed.

End NodeImport.

(** ** Duplicate names, and the Gemm variants at concrete nodes *)

Section DuplicateNames.
Implicit Types (s : FrontendGenImpl) (node : NodeProto).

(** Binding a graph input whose legalized name is taken stops at the
    assertion. *)
Lemma ImportInputTensorSymbol_duplicate s (inp : ValueInfoProto) (symbol v0 : Value) :
  frontend_symbols_ s !! legalize_name (name inp) = Some v0 →
  ImportInputTensorSymbol inp symbol s
  = Fail (AssertionFailed "Found duplicate legalized input tensor names.").
Proof.
  intros H. unfold ImportInputTensorSymbol, bind, get.
  rewrite (proj2 (ContainKey_spec _ _)) by (rewrite H; eauto). done.
Qed.

Lemma ImportInputTensorSymbol_fresh s (inp : ValueInfoProto) (symbol : Value) :
  frontend_symbols_ s !! legalize_name (name inp) = None →
  ImportInputTensorSymbol inp symbol s
  = Ok (tt, {| frontend_symbols_ :=
                 <[legalize_name (name inp) := symbol]> (frontend_symbols_ s);
               entryBlock := entryBlock s |}).
Proof.
  intros H. unfold ImportInputTensorSymbol, bind, get.
  rewrite (proj2 (ContainKey_false _ _)) by done. simpl.
  unfold add_symbol, modify. rewrite AddMapping_fresh; rewrite legalize_name_involutive; done.
Qed.

(** C2, the code at the failing input.  [AddMapping] on a bound name is
    not an error and changes nothing; so the second of two nodes that name
    the same output is imported without complaint, and the name keeps the
    result of the first. *)
Theorem duplicate_output_binding_is_kept_silently :
  AddMapping (AddMapping ∅ (cstr "y") (OpResult 0 0)) (cstr "y") (OpResult 1 0)
    = AddMapping ∅ (cstr "y") (OpResult 0 0)
  ∧ ∃ s', (do _ <- ImportInputs dup_inputs 0; ImportNodes dup_nodes) empty_importer
            = Ok (tt, s')
          ∧ length (entryBlock s') = 2
          ∧ GetTensorByOnnxName (frontend_symbols_ s') (cstr "y") = Ok (OpResult 0 0).
Proof.
  split; [by vm_compute|].
  eexists. split_and!; [vm_compute; reflexivity | by vm_compute..].
Qed.

(** C8, the claim refuted.  One resolved operand, not two, and the variadic
    operation is built all the same. *)
Lemma Gemm_fallback_with_one_operand :
  resolved (frontend_symbols_ gemm1_state) (input gemm1_node) = [BlockArgument 0]
  ∧ ∃ m, ImportNode gemm1_node gemm1_state
         = Ok (tt, {| frontend_symbols_ := m;
                      entryBlock := [ONNXGemmOp f32tensor [BlockArgument 0]] |}).
Proof.
  split; [by vm_compute|]. eexists. vm_compute. reflexivity.
Qed.

Lemma Gemm_variant_by_operand_count_witness :
  op_type gemm3_node = cstr "Gemm"
  ∧ output gemm3_node = cstr "y" :: []
  ∧ ∃ m, ImportNode gemm3_node gemm3_state
         = Ok (tt, {| frontend_symbols_ := m;
                      entryBlock := entryBlock gemm3_state ++
                        [match resolved (frontend_symbols_ gemm3_state) (input gemm3_node) with
                         | [a; b; c] => ONNXFullGemmOp f32tensor a b c
                         | operands => ONNXGemmOp f32tensor operands
                         end] |}).
Proof.
  split; [reflexivity|]. split; [reflexivity|].
  exact (Gemm_variant_by_operand_count gemm3_state gemm3_node (cstr "y") []
           eq_refl eq_refl).
Defined.

End DuplicateNames.

(** ** Arithmetic of [int64_t] *)

Section Wrap.
Open Scope Z.

Lemma wrap_add_multiple (w z k : Z) : wrap w (z + k * 2 ^ w) = wrap w z.
Proof.
  unfold wrap. f_equal.
  replace (z + k * 2 ^ w + 2 ^ (w - 1)) with (z + 2 ^ (w - 1) + k * 2 ^ w) by lia.
  apply Z_mod_plus_full.
Qed.

Lemma wrap_congruent (w z : Z) : ∃ k, wrap w z = z + k * 2 ^ w.
Proof.
  unfold wrap. exists (- ((z + 2 ^ (w - 1)) / 2 ^ w)).
  pose proof (Z_div_mod_eq_full (z + 2 ^ (w - 1)) (2 ^ w)). lia.
Qed.

Lemma wrap_small (w z : Z) :
  0 < w → - 2 ^ (w - 1) ≤ z < 2 ^ (w - 1) → wrap w z = z.
Proof.
  intros Hw Hz. unfold wrap.
  assert (2 ^ w = 2 * 2 ^ (w - 1)) as E.
  { replace w with (Z.succ (w - 1)) at 1 by lia. apply Z.pow_succ_r. lia. }
  rewrite Z.mod_small by lia. lia.
Qed.

Lemma wrap_range (w z : Z) :
  0 < w → - 2 ^ (w - 1) ≤ wrap w z < 2 ^ (w - 1).
Proof.
  intros Hw. unfold wrap.
  assert (2 ^ w = 2 * 2 ^ (w - 1)) as E.
  { replace w with (Z.succ (w - 1)) at 1 by lia. apply Z.pow_succ_r. lia. }
  assert (0 < 2 ^ (w - 1)) by (apply Z.pow_pos_nonneg; lia).
  pose proof (Z.mod_pos_bound (z + 2 ^ (w - 1)) (2 ^ w)). lia.
Qed.

Lemma wrap_mul_l (w a b : Z) : wrap w (wrap w a * b) = wrap w (a * b).
Proof.
  destruct (wrap_congruent w a) as [k ->].
  replace ((a + k * 2 ^ w) * b) with (a * b + (k * b) * 2 ^ w) by lia.
  apply wrap_add_multiple.
Qed.

Lemma wrap_mul_r (w a b : Z) : wrap w (a * wrap w b) = wrap w (a * b).
Proof. rewrite (Z.mul_comm a), wrap_mul_l. f_equal. lia. Qed.

Lemma mul64_wrap_l (a b : Z) : mul64 (wrap64 a) b = wrap64 (a * b).
Proof. apply wrap_mul_l. Qed.

Lemma foldl_mul64 (acc : Z) (l : list Z) :
  foldl mul64 (wrap64 acc) l = wrap64 (acc * product l).
Proof.
  revert acc. induction l as [|x l IH]; intros acc; simpl.
  - f_equal. lia.
  - rewrite mul64_wrap_l, IH. f_equal. lia.
Qed.

Lemma foldl_mul64_1 (l : list Z) : foldl mul64 1 l = wrap64 (product l).
Proof.
  change 1 with (wrap64 1) at 1. rewrite foldl_mul64. f_equal. lia.
Qed.

End Wrap.

(** ** Dense strides *)

Section DenseStrides.

Lemma length_dense_strides (shape : list Z) :
  length (dense_strides shape) = length shape.
Proof. induction shape; simpl; congruence. Qed.

Lemma dense_strides_lookup (shape : list Z) (i : nat) :
  i < length shape →
  dense_strides shape !! i = Some (wrap64 (product (drop (S i) shape))).
Proof.
  revert i. induction shape as [|x shape IH]; intros i Hi; simpl in *; [lia|].
  destruct i as [|i]; simpl; [by rewrite drop_0|]. apply IH. lia.
Qed.

(** The strides of that definition obey the law as the spec words it. *)
Lemma dense_strides_law (shape : list Z) :
  (0 < length shape → dense_strides shape !! (length shape - 1) = Some 1%Z)
  ∧ (∀ i s x, i + 1 < length shape →
       dense_strides shape !! (i + 1) = Some s → shape !! (i + 1) = Some x →
       dense_strides shape !! i = Some (mul64 s x)).
Proof.
  split.
  - intros H. rewrite dense_strides_lookup by lia.
    rewrite drop_ge by lia. done.
  - intros i s x Hi Hs Hx.
    rewrite dense_strides_lookup in Hs by lia. injection Hs as <-.
    rewrite dense_strides_lookup by lia.
    replace (S i) with (i + 1) by lia.
    rewrite (drop_S shape x (i + 1)) by done. simpl.
    rewrite mul64_wrap_l. f_equal. f_equal. lia.
Qed.

End DenseStrides.

(** ** Reading arrays through pointers *)

Section Reading.
Implicit Types (h : heap) (p : ptr).

Lemma load_cells_length h p (n : Z) (l : list Z) :
  load_cells h p n = Ok l → (0 ≤ n)%Z ∧ length l = Z.to_nat n.
Proof.
  unfold load_cells. destruct (blocks h !! p) as [[vs|t]|];
    repeat case_decide; intros [= <-]; subst; try done.
  rewrite length_take. lia.
Qed.

Lemma load_cells_lookup h p (n : Z) (l : list Z) (j : nat) (x : Z) :
  load_cells h p n = Ok l → l !! j = Some x → load_cell h p j = Ok x.
Proof.
  unfold load_cells, load_cell, index.
  destruct (blocks h !! p) as [[vs|t]|];
    repeat case_decide; intros [= <-]; try done.
  intros [-> _]%lookup_take_Some. done.
Qed.

Lemma stride_if_not_skipping_spec h p (n : Z) (sh : list Z) (j k : nat) (acc : Z) :
  load_cells h p n = Ok sh → j + k ≤ length sh →
  stride_if_not_skipping h p j k acc = Ok (foldl mul64 acc (take k (drop j sh))).
Proof.
  intros Hsh. revert j acc. induction k as [|k IH]; intros j acc Hjk; simpl.
  - done.
  - destruct (lookup_lt_is_Some_2 sh j) as [x Hx]; [lia|].
    rewrite (load_cells_lookup _ _ _ _ _ _ Hsh Hx). simpl.
    rewrite IH by lia. by rewrite (drop_S _ _ _ Hx).
Qed.

End Reading.

(** ** The element count and its density check *)

Section NumElems.
Implicit Types (h : heap) (t : OMTensor).

Lemma check_dense_spec h t (shape strides : list Z) (k : nat) :
  load_cells h (_shape t) (_rank t) = Ok shape →
  load_cells h (_stride t) (_rank t) = Ok strides →
  k ≤ length shape →
  check_dense h t k
  = if decide (take k strides = take k (dense_strides shape))
    then Ok tt else Fail dense_assertion.
Proof.
  intros Hsh Hst.
  destruct (load_cells_length _ _ _ _ Hsh) as [Hr Hlsh].
  destruct (load_cells_length _ _ _ _ Hst) as [_ Hlst].
  induction k as [|k IH]; intros Hk.
  - reflexivity.
  - cbn [check_dense].
    rewrite (stride_if_not_skipping_spec _ _ _ _ _ _ _ Hsh) by lia.
    rewrite take_ge by (rewrite length_drop; lia).
    rewrite foldl_mul64_1. cbn [res_bind].
    destruct (lookup_lt_is_Some_2 strides k) as [x Hx]; [lia|].
    rewrite (load_cells_lookup _ _ _ _ _ _ Hst Hx). cbn [res_bind].
    pose proof (dense_strides_lookup shape k ltac:(lia)) as Hd.
    replace (k + 1) with (S k) by lia.
    rewrite (take_S_r _ _ _ Hx), (take_S_r _ _ _ Hd).
    destruct (Z.eqb_spec x (wrap64 (product (drop (S k) shape)))) as [->|Hne].
    + rewrite IH by lia. case_decide as E.
      * rewrite decide_True; [done | by rewrite E].
      * rewrite decide_False; [done|]. intros [? _]%app_inj_tail. done.
    + rewrite decide_False; [done|]. intros [_ ?]%app_inj_tail. done.
Qed.

(** C6.  On a descriptor whose strides are the dense strides of its shape,
    [omTensorGetNumElems] returns the product of the extents (as an
    [int64_t]: the product itself when it fits); on one whose strides
    differ, it stops at the assertion. *)
Theorem omTensorGetNumElems_checks_density h (tensor : ptr) t (shape strides : list Z) :
  load_tensor h tensor = Ok t →
  load_cells h (_shape t) (_rank t) = Ok shape →
  load_cells h (_stride t) (_rank t) = Ok strides →
  (strides = dense_strides shape →
     omTensorGetNumElems h tensor = Ok (wrap64 (product shape))
     ∧ ((- 2 ^ 63 ≤ product shape < 2 ^ 63)%Z →
        omTensorGetNumElems h tensor = Ok (product shape)))
  ∧ (strides ≠ dense_strides shape →
     omTensorGetNumElems h tensor = Fail dense_assertion).
Proof.
  intros Ht Hsh Hst.
  destruct (load_cells_length _ _ _ _ Hsh) as [Hr Hlsh].
  destruct (load_cells_length _ _ _ _ Hst) as [_ Hlst].
  assert (omTensorGetNumElems h tensor
          = if decide (strides = dense_strides shape)
            then Ok (wrap64 (product shape)) else Fail dense_assertion) as E.
  { unfold omTensorGetNumElems. rewrite Ht. cbn [res_bind].
    rewrite (check_dense_spec _ _ _ _ _ Hsh Hst) by lia.
    rewrite !take_ge by (rewrite ?length_dense_strides; lia).
    case_decide; [|done]. cbn [res_bind]. unfold getNumOfElems.
    rewrite Z.max_r by lia. rewrite Hsh. cbn [res_bind].
    by rewrite foldl_mul64_1. }
  split.
  - intros Hd. rewrite E, decide_True by done. split; [done|].
    intros Hfit. f_equal. by apply wrap_small.
  - intros Hd. by rewrite E, decide_False.
Qed.

Lemma omTensorGetNumElems_checks_density_witness :
  (load_tensor dense_example 1%N
     = Ok (mkOMTensor 7%N 7%N 0 2%N 3%N 3 ONNX_TYPE_FLOAT 0)
   ∧ load_cells dense_example 2%N 3 = Ok [2; 3; 4]%Z
   ∧ load_cells dense_example 3%N 3 = Ok [12; 4; 1]%Z
   ∧ [12; 4; 1]%Z = dense_strides [2; 3; 4]%Z
   ∧ omTensorGetNumElems dense_example 1%N = Ok 24%Z)
  ∧ (load_tensor corrupted_example 1%N
       = Ok (mkOMTensor 7%N 7%N 0 2%N 3%N 3 ONNX_TYPE_FLOAT 0)
     ∧ load_cells corrupted_example 2%N 3 = Ok [2; 3; 4]%Z
     ∧ load_cells corrupted_example 3%N 3 = Ok [12; 4; 2]%Z
     ∧ [12; 4; 2]%Z ≠ dense_strides [2; 3; 4]%Z
     ∧ omTensorGetNumElems corrupted_example 1%N = Fail dense_assertion).
Proof.
  assert ([12; 4; 2]%Z ≠ dense_strides [2; 3; 4]%Z) as Hne by (vm_compute; discriminate).
  split.
  - split; [reflexivity|]. split; [reflexivity|]. split; [reflexivity|].
    split; [reflexivity|].
    refine (proj2 (proj1 (omTensorGetNumElems_checks_density dense_example 1%N
              (mkOMTensor 7%N 7%N 0 2%N 3%N 3 ONNX_TYPE_FLOAT 0)
              [2; 3; 4]%Z [12; 4; 1]%Z eq_refl eq_refl eq_refl) eq_refl) _).
    split; by vm_compute.
  - split; [reflexivity|]. split; [reflexivity|]. split; [reflexivity|].
    split; [exact Hne|].
    exact (proj2 (omTensorGetNumElems_checks_density corrupted_example 1%N
              (mkOMTensor 7%N 7%N 0 2%N 3%N 3 ONNX_TYPE_FLOAT 0)
              [2; 3; 4]%Z [12; 4; 2]%Z eq_refl eq_refl eq_refl) Hne).
Defined.

End NumElems.

(** ** Running monadic code *)

Section Monad.
Context {S A B : Type}.

Lemma bind_Ok (m : M S A) (k : A → M S B) (s s' : S) (a : A) :
  m s = Ok (a, s') → bind m k s = k a s'.
Proof. unfold bind. by intros ->. Qed.

Lemma bind_Fail (m : M S A) (k : A → M S B) (s : S) (f : fault) :
  m s = Fail f → bind m k s = Fail f.
Proof. unfold bind. by intros ->. Qed.

Lemma reading_Ok (f : S → res A) (s : S) (a : A) :
  f s = Ok a → reading f s = Ok (a, s).
Proof. unfold reading. by intros ->. Qed.

End Monad.

(** ** Heap operations that succeed *)

Section Heap.
Implicit Types (h : heap) (p : ptr) (t : OMTensor).

Lemma malloc_Ok (b : block) (n : nat) h :
  mallocs_succeed (S n) h →
  let h' := mkHeap (<[(brk h + 1)%N := b]> (blocks h)) (brk h + 1)%N (tail (oracle h)) in
  malloc b h = Ok ((brk h + 1)%N, h') ∧ mallocs_succeed n h'.
Proof.
  unfold mallocs_succeed, malloc. intros H.
  destruct (oracle h) as [|[|] o] eqn:E; simpl in *.
  - split; [done|]. by rewrite take_nil.
  - split; [done|]. by apply Forall_cons in H as [_ ?].
  - by apply Forall_cons in H as [? _].
Qed.

Lemma load_tensor_Ok h p t :
  blocks h !! p = Some (Struct t) → load_tensor h p = Ok t.
Proof. unfold load_tensor. by intros ->. Qed.

Lemma load_cell_Ok h p (vs : list Z) (i : nat) (x : Z) :
  blocks h !! p = Some (Cells vs) → vs !! i = Some x → load_cell h p i = Ok x.
Proof. unfold load_cell, index. by intros -> ->. Qed.

Lemma load_cells_Ok h p (vs : list Z) :
  blocks h !! p = Some (Cells vs) → load_cells h p (Z.of_nat (length vs)) = Ok vs.
Proof.
  unfold load_cells. intros ->. rewrite decide_True by lia.
  by rewrite Nat2Z.id, firstn_all.
Qed.

Lemma store_cell_Ok h p (vs : list Z) (i : nat) (v : Z) :
  blocks h !! p = Some (Cells vs) → i < length vs →
  store_cell p i v h
  = Ok (tt, mkHeap (<[p := Cells (<[i := v]> vs)]> (blocks h)) (brk h) (oracle h)).
Proof. unfold store_cell. intros -> ?. by rewrite decide_True. Qed.

Lemma update_tensor_Ok h p t (f : OMTensor → OMTensor) :
  blocks h !! p = Some (Struct t) →
  update_tensor p f h
  = Ok (tt, mkHeap (<[p := Struct (f t)]> (blocks h)) (brk h) (oracle h)).
Proof.
  intros H. unfold update_tensor.
  rewrite (bind_Ok _ _ h h t) by (by apply reading_Ok, load_tensor_Ok).
  unfold store_tensor. by rewrite H.
Qed.

End Heap.

(** ** The loop of [omTensorCreate] *)

Section Create.
Variables (shape : list Z) (tensor : ptr) (t : OMTensor).
Let r := length shape.
Let rank := Z.of_nat r.

(** One iteration of the creation loop writes entry [i] of both arrays. *)
Lemma create_step_spec (h : heap) (sh st : list Z) (i : nat) :
  tensor_at h tensor t sh st → length sh = r → length st = r → i < r →
  (∀ j, i < j < r → sh !! j = shape !! j ∧ st !! j = dense_strides shape !! j) →
  ∃ h' sh' st',
    create_step tensor shape rank i h = Ok (tt, h')
    ∧ tensor_at h' tensor t sh' st' ∧ length sh' = r ∧ length st' = r
    ∧ (∀ j, i ≤ j < r → sh' !! j = shape !! j ∧ st' !! j = dense_strides shape !! j).
Proof.
  intros (Ht & Hsh & Hst & Hne) Hlsh Hlst Hi Hinv.
  assert (tensor ≠ _shape t) as Hts by congruence.
  assert (tensor ≠ _stride t) as Htt by congruence.
  destruct (lookup_lt_is_Some_2 shape i) as [x Hx]; [done|].
  unfold create_step.
  rewrite (bind_Ok _ _ h h x) by (apply reading_Ok; unfold index; by rewrite Hx).
  rewrite (bind_Ok _ _ h h t) by (by apply reading_Ok, load_tensor_Ok).
  erewrite bind_Ok by (eapply store_cell_Ok; [exact Hsh | lia]).
  set (h1 := mkHeap _ _ _).
  assert (blocks h1 !! _stride t = Some (Cells st)) as Hst1
    by (subst h1; simpl; by rewrite lookup_insert_ne).
  assert (blocks h1 !! _shape t = Some (Cells (<[i := x]> sh))) as Hsh1
    by (subst h1; simpl; by rewrite lookup_insert_eq).
  assert (blocks h1 !! tensor = Some (Struct t)) as Ht1
    by (subst h1; simpl; by rewrite lookup_insert_ne).
  assert (∀ v, ∃ h',
    store_cell (_stride t) i v h1 = Ok (tt, h')
    ∧ tensor_at h' tensor t (<[i := x]> sh) (<[i := v]> st)) as Hstore.
  { intros v. eexists. split; [eapply store_cell_Ok; [exact Hst1 | lia]|].
    split_and!; simpl; [by rewrite lookup_insert_ne | by rewrite lookup_insert_ne
                       | by rewrite lookup_insert_eq | done]. }
  assert (∀ v, dense_strides shape !! i = Some v →
    ∀ j, i ≤ j < r →
      <[i := x]> sh !! j = shape !! j ∧ <[i := v]> st !! j = dense_strides shape !! j)
    as Hnew.
  { intros v Hv j Hj. destruct (decide (j = i)) as [->|Hji].
    - rewrite !list_lookup_insert_eq by lia. by rewrite Hx, Hv.
    - rewrite !list_lookup_insert_ne by lia. apply Hinv. lia. }
  pose proof (dense_strides_law shape) as [Hlast Hlaw].
  destruct (Z.eqb_spec (Z.of_nat i) (rank - 1)) as [Elast|Elast].
  - destruct (Hstore 1%Z) as (h' & -> & Hat).
    exists h', (<[i := x]> sh), (<[i := 1%Z]> st).
    split_and!; [done | done | by rewrite length_insert..|].
    apply Hnew. replace i with (length shape - 1) by (subst rank r; lia).
    apply Hlast. lia.
  - assert (i + 1 < r) as Hi1 by (subst rank; lia).
    destruct (Hinv (i + 1) ltac:(lia)) as [Hsh_next Hst_next].
    destruct (lookup_lt_is_Some_2 shape (i + 1)) as [b Hb]; [done|].
    destruct (lookup_lt_is_Some_2 (dense_strides shape) (i + 1)) as [a Ha];
      [by rewrite length_dense_strides|].
    rewrite (bind_Ok _ _ h1 h1 a)
      by (apply reading_Ok; eapply load_cell_Ok; [exact Hst1 | congruence]).
    rewrite (bind_Ok _ _ h1 h1 b).
    2:{ apply reading_Ok. eapply load_cell_Ok; [exact Hsh1|].
        rewrite list_lookup_insert_ne by lia. congruence. }
    destruct (Hstore (mul64 a b)) as (h' & -> & Hat).
    exists h', (<[i := x]> sh), (<[i := mul64 a b]> st).
    split_and!; [done | done | by rewrite length_insert..|].
    apply Hnew. by apply Hlaw.
Qed.

Lemma create_loop_spec (k : nat) (h : heap) (sh st : list Z) :
  tensor_at h tensor t sh st → length sh = r → length st = r → k ≤ r →
  (∀ j, k ≤ j < r → sh !! j = shape !! j ∧ st !! j = dense_strides shape !! j) →
  ∃ h',
    create_loop k tensor shape rank h = Ok (tt, h')
    ∧ tensor_at h' tensor t shape (dense_strides shape).
Proof.
  revert h sh st. induction k as [|k IH]; intros h sh st Hat Hlsh Hlst Hk Hinv.
  - exists h. split; [done|].
    assert (sh = shape) as <-.
    { apply list_eq. intros j. destruct (decide (j < r)) as [Hj|Hj].
      - apply Hinv. lia.
      - rewrite !lookup_ge_None_2; [done | subst r; lia | lia]. }
    assert (st = dense_strides sh) as <-; [|done].
    apply list_eq. intros j. destruct (decide (j < r)) as [Hj|Hj].
    + apply Hinv. lia.
    + rewrite !lookup_ge_None_2; [done | rewrite length_dense_strides; subst r; lia | lia].
  - cbn [create_loop].
    destruct (create_step_spec h sh st k Hat Hlsh Hlst ltac:(lia))
      as (h1 & sh1 & st1 & Hstep & Hat1 & Hl1 & Hl2 & Hinv1).
    { intros j Hj. apply Hinv. lia. }
    rewrite (bind_Ok _ _ _ _ _ Hstep).
    destruct (IH h1 sh1 st1 Hat1 Hl1 Hl2 ltac:(lia) Hinv1) as (h' & -> & Hat').
    by exists h'.
Qed.

End Create.

(** ** Products without overflow *)

Section CreateTheorem.
Open Scope Z.

Lemma product_pos (l : list Z) : Forall (λ x, 0 < x) l → 0 < product l.
Proof. induction 1; simpl; [lia | nia]. Qed.

Lemma product_app (l1 l2 : list Z) : product (l1 ++ l2) = product l1 * product l2.
Proof. induction l1; simpl; [lia | rewrite IHl1; lia]. Qed.

Lemma product_drop_bound (l : list Z) (k : nat) :
  Forall (λ x, 0 < x) l → 0 < product (drop k l) ≤ product l.
Proof.
  intros H. rewrite <-(take_drop k l) in H. apply Forall_app in H as [H1 H2].
  apply product_pos in H1, H2.
  rewrite <-(take_drop k l) at 3. rewrite product_app. nia.
Qed.

(** Without overflow the dense strides are the plain products. *)
Lemma dense_strides_exact (shape : list Z) (i : nat) :
  Forall (λ x, 0 < x) shape → product shape < 2 ^ 63 → (i < length shape)%nat →
  dense_strides shape !! i = Some (product (drop (S i) shape)).
Proof.
  intros Hpos Hfit Hi. rewrite dense_strides_lookup by done.
  f_equal. apply wrap_small; [lia|].
  pose proof (product_drop_bound shape (S i) Hpos). lia.
Qed.

End CreateTheorem.

(** ** [omTensorCreate] *)

Section CreateMain.

Lemma malloc_fresh (b : block) (n : nat) (h : heap) :
  mallocs_succeed (S n) h →
  ∃ h', malloc b h = Ok ((brk h + 1)%N, h')
        ∧ blocks h' = <[(brk h + 1)%N := b]> (blocks h)
        ∧ brk h' = (brk h + 1)%N
        ∧ mallocs_succeed n h'.
Proof. intros H. eexists. split; [apply (malloc_Ok b n h H)|]. split_and!; try done. apply (malloc_Ok b n h H). Qed.

Lemma update_tensor_at (h : heap) (p : ptr) (t : OMTensor) (f : OMTensor → OMTensor) (n : nat) :
  blocks h !! p = Some (Struct t) → mallocs_succeed n h →
  ∃ h', update_tensor p f h = Ok (tt, h')
        ∧ blocks h' = <[p := Struct (f t)]> (blocks h)
        ∧ brk h' = brk h
        ∧ mallocs_succeed n h'.
Proof. intros H Hm. eexists. split; [by apply update_tensor_Ok|]. done. Qed.

Lemma omTensorCreate_spec (h : heap) (data_ptr : ptr) (shape : list Z)
    (dtype : OM_DATA_TYPE) :
  mallocs_succeed 3 h →
  ∃ h' t,
    omTensorCreate data_ptr shape (Z.of_nat (length shape)) dtype h
      = Ok ((brk h + 1)%N, h')
    ∧ tensor_at h' (brk h + 1)%N t shape (dense_strides shape)
    ∧ t = mkOMTensor data_ptr data_ptr 0 (brk h + 2)%N (brk h + 3)%N
            (Z.of_nat (length shape)) dtype 0.
Proof.
  intros Hm. unfold omTensorCreate.
  destruct (malloc_fresh (Struct blank_tensor) 2 h Hm) as (h1 & E1 & B1 & K1 & Hm1).
  rewrite (bind_Ok _ _ _ _ _ E1). clear E1.
  set (p1 := (brk h + 1)%N) in *.
  rewrite decide_False by (unfold NULL; lia).
  unfold malloc_int64s.
  destruct (Z.ltb_spec (Z.of_nat (length shape)) 0) as [?|_]; [lia|].
  rewrite Nat2Z.id.
  destruct (malloc_fresh (Cells (replicate (length shape) 0%Z)) 1 h1 Hm1)
    as (h2 & E2 & B2 & K2 & Hm2).
  rewrite (bind_Ok _ _ _ _ _ E2). clear E2.
  set (p2 := (brk h1 + 1)%N) in *.
  assert (blocks h2 !! p1 = Some (Struct blank_tensor)) as Hp1.
  { rewrite B2, B1. rewrite lookup_insert_ne by lia. by rewrite lookup_insert_eq. }
  destruct (update_tensor_at h2 p1 _ (λ t, with_shape t p2) 1 Hp1 Hm2)
    as (h3 & E3 & B3 & K3 & Hm3).
  rewrite (bind_Ok _ _ _ _ _ E3). clear E3.
  rewrite decide_False by (unfold NULL; lia).
  destruct (malloc_fresh (Cells (replicate (length shape) 0%Z)) 0 h3 Hm3)
    as (h4 & E4 & B4 & K4 & _).
  set (p3 := (brk h3 + 1)%N) in *.
  assert (blocks h4 !! p1 = Some (Struct (with_shape blank_tensor p2))) as Hp1'.
  { rewrite B4, B3. rewrite lookup_insert_ne by lia. by rewrite lookup_insert_eq. }
  destruct (update_tensor_at h4 p1 _ (λ t, with_stride t p3) 0 Hp1')
    as (h5 & E5 & B5 & K5 & _); [by apply Forall_nil|].
  erewrite bind_Ok; cycle 1.
  { erewrite bind_Ok by exact E4. erewrite bind_Ok by exact E5. reflexivity. }
  rewrite bool_decide_eq_true_2 by (unfold NULL; lia).
  set (t5 := with_stride (with_shape blank_tensor p2) p3) in *.
  assert (blocks h5 !! p1 = Some (Struct t5)) as Hp5
    by (rewrite B5; by rewrite lookup_insert_eq).
  rewrite (bind_Ok _ _ h5 h5 t5) by (by apply reading_Ok, load_tensor_Ok).
  rewrite decide_False.
  2:{ subst t5. simpl. unfold NULL. lia. }
  set (t6 := mkOMTensor data_ptr data_ptr 0 p2 p3 (Z.of_nat (length shape)) dtype 0).
  destruct (update_tensor_at h5 p1 _
              (λ t, mkOMTensor data_ptr data_ptr (_offset t) (_shape t) (_stride t)
                      (Z.of_nat (length shape)) dtype 0) 0 Hp5)
    as (h6 & E6 & B6 & K6 & _); [by apply Forall_nil|].
  rewrite (bind_Ok _ _ _ _ _ E6). clear E6.
  assert (tensor_at h6 p1 t6 (replicate (length shape) 0%Z)
            (replicate (length shape) 0%Z)) as Hat.
  { unfold tensor_at. rewrite B6, B5, B4, B3, B2, B1. subst t6 t5. simpl.
    split_and!.
    - by rewrite lookup_insert_eq.
    - rewrite !lookup_insert_ne by lia. by rewrite lookup_insert_eq.
    - rewrite !lookup_insert_ne by lia. by rewrite lookup_insert_eq.
    - lia. }
  destruct (create_loop_spec shape p1 t6 (length shape) h6 _ _ Hat)
    as (h' & Hloop & Hat'); [by rewrite length_replicate.. | done | intros; lia |].
  rewrite (bind_Ok _ _ _ _ _ Hloop).
  exists h', t6. split_and!; [done | done |].
  subst t6. f_equal; lia.
Qed.

End CreateMain.

Section CreateClaim.
Open Scope Z.

(** C5.  A descriptor fresh from [omTensorCreate] does not own its buffer
    and has dense row-major strides: the last stride is 1 and every other
    one is the next stride times the next extent, in [int64_t] arithmetic,
    which is the plain product when the extents are positive and their
    product fits. *)
Theorem omTensorCreate_dense_strides (h : heap) (data_ptr : ptr) (shape : list Z)
    (dtype : OM_DATA_TYPE) :
  mallocs_succeed 3 h →
  ∃ tensor h' t strides,
    omTensorCreate data_ptr shape (Z.of_nat (length shape)) dtype h = Ok (tensor, h')
    ∧ tensor ≠ NULL
    ∧ load_tensor h' tensor = Ok t
    ∧ _rank t = Z.of_nat (length shape)
    ∧ _owning t = 0
    ∧ _allocatedPtr t = data_ptr
    ∧ load_cells h' (_shape t) (_rank t) = Ok shape
    ∧ load_cells h' (_stride t) (_rank t) = Ok strides
    ∧ length strides = length shape
    ∧ ((0 < length shape)%nat → strides !! (length shape - 1)%nat = Some 1)
    ∧ (∀ (i : nat) s x, (i + 1 < length shape)%nat →
         strides !! (i + 1)%nat = Some s → shape !! (i + 1)%nat = Some x →
         strides !! i = Some (mul64 s x))
    ∧ (Forall (λ x, 0 < x) shape → product shape < 2 ^ 63 →
       ∀ (i : nat) s x, (i + 1 < length shape)%nat →
         strides !! (i + 1)%nat = Some s → shape !! (i + 1)%nat = Some x →
         strides !! i = Some (s * x)).
Proof.
  intros Hm.
  destruct (omTensorCreate_spec h data_ptr shape dtype Hm)
    as (h' & t & Hrun & (Ht & Hsh & Hst & _) & Et).
  exists (brk h + 1)%N, h', t, (dense_strides shape).
  assert (_rank t = Z.of_nat (length shape)) as Hrank by (by subst t).
  assert (_owning t = 0 ∧ _allocatedPtr t = data_ptr) as [Hown Hdata] by (by subst t).
  clear Et. rewrite Hrank.
  pose proof (dense_strides_law shape) as [Hlast Hlaw].
  split_and!; try done.
  - unfold NULL. lia.
  - by apply load_tensor_Ok.
  - by apply load_cells_Ok.
  - rewrite <-(length_dense_strides shape). by apply load_cells_Ok.
  - apply length_dense_strides.
  - intros Hpos Hfit i s x Hi Hs Hx.
    rewrite dense_strides_exact in Hs by (done || lia). injection Hs as <-.
    rewrite dense_strides_exact by (done || lia).
    replace (S i) with (i + 1)%nat by lia.
    rewrite (drop_S shape x (i + 1)) by done. simpl. f_equal. lia.
Qed.

Lemma omTensorCreate_dense_strides_witness :
  mallocs_succeed 3 empty_heap
  ∧ ∃ tensor h' t strides,
    omTensorCreate 7%N [2; 3; 4] (Z.of_nat (length [2; 3; 4])) ONNX_TYPE_FLOAT empty_heap
      = Ok (tensor, h')
    ∧ tensor ≠ NULL
    ∧ load_tensor h' tensor = Ok t
    ∧ _rank t = Z.of_nat (length [2; 3; 4])
    ∧ _owning t = 0
    ∧ _allocatedPtr t = 7%N
    ∧ load_cells h' (_shape t) (_rank t) = Ok [2; 3; 4]
    ∧ load_cells h' (_stride t) (_rank t) = Ok strides
    ∧ length strides = length [2; 3; 4]
    ∧ ((0 < length [2; 3; 4])%nat → strides !! (length [2; 3; 4] - 1)%nat = Some 1)
    ∧ (∀ (i : nat) s x, (i + 1 < length [2; 3; 4])%nat →
         strides !! (i + 1)%nat = Some s → [2; 3; 4] !! (i + 1)%nat = Some x →
         strides !! i = Some (mul64 s x))
    ∧ (Forall (λ x, 0 < x) [2; 3; 4] → product [2; 3; 4] < 2 ^ 63 →
       ∀ (i : nat) s x, (i + 1 < length [2; 3; 4])%nat →
         strides !! (i + 1)%nat = Some s → [2; 3; 4] !! (i + 1)%nat = Some x →
         strides !! i = Some (s * x)).
Proof.
  assert (mallocs_succeed 3 empty_heap) as H by (vm_compute; constructor).
  split; [exact H|].
  exact (omTensorCreate_dense_strides empty_heap 7%N [2; 3; 4] ONNX_TYPE_FLOAT H).
Defined.

End CreateClaim.

(** ** Destruction *)

Section Destroy.

(** [omTensorDestroy] frees the descriptor and, at most, its data buffer:
    every other block, the shape and stride arrays among them, is as live
    after the call as before. *)
Lemma omTensorDestroy_keeps_other_blocks (h h' : heap) (tensor p : ptr) (t : OMTensor) :
  load_tensor h tensor = Ok t →
  omTensorDestroy tensor h = Ok (tt, h') →
  p ≠ tensor → p ≠ _allocatedPtr t →
  blocks h' !! p = blocks h !! p.
Proof.
  intros Ht Hrun Hp1 Hp2. revert Hrun.
  unfold omTensorDestroy, bind, reading. rewrite Ht.
  unfold update_tensor, bind, reading, store_tensor, load_tensor, free, ret.
  repeat (case_decide || case_match || simplify_eq /=); try done;
    intros; simplify_eq /=;
    rewrite ?lookup_delete_ne, ?lookup_insert_ne, ?lookup_delete_ne by done; done.
Qed.

(** The destructor frees both arrays. *)
Lemma OMTensor_destructor_frees_arrays (h h' : heap) (this : ptr) (t : OMTensor) :
  load_tensor h this = Ok t →
  OMTensor_destructor this h = Ok (tt, h') →
  _shape t ≠ NULL → _stride t ≠ NULL →
  blocks h' !! _shape t = None ∧ blocks h' !! _stride t = None.
Proof.
  intros Ht Hrun Hp1 Hp2. revert Hrun.
  unfold OMTensor_destructor, bind, reading. rewrite Ht.
  unfold free, ret.
  repeat (case_decide || case_match || simplify_eq /=); try done;
    intros; simplify_eq /=;
    (split; [|by rewrite lookup_delete_eq]);
    (destruct (decide (_shape t = _stride t)) as [->|?];
      [by rewrite lookup_delete_eq
      |by rewrite lookup_delete_ne, lookup_delete_eq by done]).
Qed.

End Destroy.

Section DestroyClaim.

(** C4, the code at the failing input.  [omTensorDestroy] on an owning
    descriptor frees the data buffer (address 1) and the descriptor
    (address 2) and leaves the shape array (address 3) and the stride array
    (address 4) allocated; the destructor frees both arrays. *)
Theorem omTensorDestroy_leaks_shape_and_stride :
  (∃ h', create_then_destroy owned_buffer_heap = Ok (2%N, h')
         ∧ blocks h' !! 1%N = None
         ∧ blocks h' !! 2%N = None
         ∧ blocks h' !! 3%N = Some (Cells [2; 3]%Z)
         ∧ blocks h' !! 4%N = Some (Cells [3; 1]%Z))
  ∧ (∃ h', create_then_destruct owned_buffer_heap = Ok (2%N, h')
           ∧ blocks h' !! 1%N = None
           ∧ blocks h' !! 3%N = None
           ∧ blocks h' !! 4%N = None).
Proof.
  split; eexists; (split; [vm_compute; reflexivity|]); by vm_compute.
Qed.

End DestroyClaim.

(** ** The tolerance comparison *)

Section Close.
Implicit Types (h : heap) (T : elem_type).

Lemma pure_Ok {S A} (r : res A) (a : A) (s : S) : r = Ok a → pure r s = Ok (a, s).
Proof. intros ->. done. Qed.

(** C9.  On tensors of different shapes [omTensorAreTwoOmtsClose] writes
    the two shapes and returns false; no hypothesis is made on the data
    pointers, which the call does not follow. *)
Theorem shape_mismatch_is_reported T h (a b : ptr) (ta tb : OMTensor)
    (aShape bShape : list Z) (rtol atol : Q) (out : list event) :
  load_tensor h a = Ok ta →
  load_tensor h b = Ok tb →
  load_cells h (_shape ta) (_rank ta) = Ok aShape →
  load_cells h (_shape tb) (_rank tb) = Ok bShape →
  aShape ≠ bShape →
  omTensorAreTwoOmtsClose T h a b rtol atol out
  = Ok (false, out ++ shape_mismatch_report aShape bShape).
Proof.
  intros Ha Hb Hsa Hsb Hne. unfold omTensorAreTwoOmtsClose.
  rewrite (bind_Ok _ _ _ _ _ (pure_Ok _ _ out Ha)).
  rewrite (bind_Ok _ _ _ _ _ (pure_Ok _ _ out Hb)).
  rewrite (bind_Ok _ _ _ _ _ (pure_Ok _ _ out Hsa)).
  rewrite (bind_Ok _ _ _ _ _ (pure_Ok _ _ out Hsb)).
  rewrite decide_True by done.
  unfold bind, printVector, print, modify, ret, shape_mismatch_report.
  by rewrite <-!app_assoc.
Qed.

End Close.

Section CloseClaims.
Implicit Types (h : heap) (T : elem_type).

Lemma shape_mismatch_is_reported_witness :
  load_tensor mismatch_heap 1%N
    = Ok (mkOMTensor 100%N 100%N 0 2%N 3%N 1 ONNX_TYPE_INT64 0)
  ∧ load_tensor mismatch_heap 4%N
    = Ok (mkOMTensor 200%N 200%N 0 5%N 6%N 1 ONNX_TYPE_INT64 0)
  ∧ load_cells mismatch_heap 2%N 1 = Ok [2%Z]
  ∧ load_cells mismatch_heap 5%N 1 = Ok [3%Z]
  ∧ [2%Z] ≠ [3%Z]
  ∧ omTensorAreTwoOmtsClose int64_t mismatch_heap 1%N 4%N (1 # 100) (1 # 100) []
    = Ok (false, [] ++ shape_mismatch_report [2%Z] [3%Z]).
Proof.
  assert ([2%Z] ≠ [3%Z]) as Hne by discriminate.
  split; [reflexivity|]. split; [reflexivity|].
  split; [reflexivity|]. split; [reflexivity|]. split; [exact Hne|].
  exact (shape_mismatch_is_reported int64_t mismatch_heap 1%N 4%N
           (mkOMTensor 100%N 100%N 0 2%N 3%N 1 ONNX_TYPE_INT64 0)
           (mkOMTensor 200%N 200%N 0 5%N 6%N 1 ONNX_TYPE_INT64 0)
           [2%Z] [3%Z] (1 # 100) (1 # 100) [] eq_refl eq_refl eq_refl eq_refl Hne).
Defined.





(** Identical tensors are not close under zero tolerances (the
    comparisons are strict); an element 0 in [a] makes the integer
    instantiation trap on the relative difference; and a negative element
    of [a] makes the relative difference negative, hence below any positive
    [rtol]. *)
Example isClose_corner_cases :
  (∃ out, omTensorAreTwoOmtsClose int64_t identical_example 3%N 6%N 0 0 []
          = Ok (false, out))
  ∧ omTensorAreTwoOmtsClose int64_t zero_example 3%N 6%N 1 1 [] = Fail DivisionTrap
  ∧ omTensorAreTwoOmtsClose int64_t negative_example 3%N 6%N (1 # 1000) 5 []
    = Ok (true, []).
Proof.
  split; [eexists; vm_compute; reflexivity|]. split; by vm_compute.
Qed.

End CloseClaims.

(* ===================================================================== *)
(** * Part III: further properties of the code                            *)
(* ===================================================================== *)

(** ** Further properties of the name legalizer *)

Section LegalizerMore.

(** X1.  [replaceAll] of a single character replaces every occurrence
    exactly once, from left to right, and does not look again at the text
    it has put in: this holds whatever [to] is, also when [to] contains
    the character. *)
Theorem replaceAll_replaces_each_occurrence_once (c : ascii) (to str : cstring) :
  replaceAll str [c] to = flat_map (subst_char c to) str.
Proof. apply replaceAll_single. Qed.

Lemma replaceAll_loop_more_fuel (fuel fuel' : nat) (str from to r : cstring) (pos : nat) :
  replaceAll_loop fuel str from to pos = Some r → fuel ≤ fuel' →
  replaceAll_loop fuel' str from to pos = Some r.
Proof.
  revert fuel' str pos. induction fuel as [|fuel IH]; intros fuel' str pos; [done|].
  destruct fuel' as [|fuel']; [lia|]. simpl.
  destruct (string_find str from pos); [|done].
  intros H ?. apply IH; [done | lia].
Qed.

(** X2.  The loop of [replaceAll] ends for every nonempty [from], also
    when [to] contains [from]: after at most [length str + 1] iterations it
    has its result, and more iterations are never taken. *)
Theorem replaceAll_loop_ends (fuel : nat) (str from to : cstring) :
  from ≠ [] → length str < fuel →
  replaceAll_loop fuel str from to 0 = Some (replaceAll str from to).
Proof.
  intros Hne Hfuel.
  apply (replaceAll_loop_more_fuel (S (length str))); [|lia].
  by apply replaceAll_is_loop_result.
Qed.

Lemma replaceAll_loop_ends_witness :
  cstr "x" ≠ [] ∧ length (cstr "axbxx") < 9
  ∧ replaceAll_loop 9 (cstr "axbxx") (cstr "x") (cstr "yx") 0
    = Some (replaceAll (cstr "axbxx") (cstr "x") (cstr "yx")).
Proof.
  assert (cstr "x" ≠ []) as H1 by discriminate.
  assert (length (cstr "axbxx") < 9) as H2 by (vm_compute; lia).
  split; [exact H1|]. split; [exact H2|].
  exact (replaceAll_loop_ends 9 (cstr "axbxx") (cstr "x") (cstr "yx") H1 H2).
Defined.

(** X3.  The names [legalize_name] leaves as they are are exactly those
    without '/', '-' and ':' that do not start with a digit. *)
Theorem legalize_name_fixpoints (s : cstring) :
  legalize_name s = s
  ↔ Forall legal_char s ∧ (∀ c, head s = Some c → isdigit c = false).
Proof.
  split.
  - intros E. split.
    + rewrite <-E. apply legalize_name_legal.
    + intros c. rewrite <-E. apply legalize_name_head.
  - intros [Hl Hh]. by apply legalize_name_fixpoint.
Qed.

Lemma legalize_body_separators (s s' : cstring) :
  same_up_to_separators s s' → legalize_body s = legalize_body s'.
Proof.
  unfold legalize_body, std_replace.
  induction 1 as [|c d s s' Hcd _ IH]; [done|].
  cbn [fmap list_fmap flat_map]. rewrite IH. f_equal.
  destruct Hcd as [->|[Hc Hd]]; [done|].
  unfold separator in *.
  destruct Hc as [-> | [-> | ->]], Hd as [-> | [-> | ->]]; reflexivity.
Qed.

(** X4.  [legalize_name] does not tell '/', '-' and '_' apart: two names
    that differ only in these characters get the same legalized name. *)
Theorem legalize_name_merges_separators (s s' : cstring) :
  same_up_to_separators s s' → legalize_name s = legalize_name s'.
Proof.
  intros H. rewrite !legalize_name_unfold.
  by rewrite (legalize_body_separators s s' H).
Qed.

Lemma legalize_name_merges_separators_witness :
  same_up_to_separators (cstr "conv/w-1") (cstr "conv_w/1")
  ∧ legalize_name (cstr "conv/w-1") = legalize_name (cstr "conv_w/1").
Proof.
  assert (same_up_to_separators (cstr "conv/w-1") (cstr "conv_w/1")) as H.
  { unfold same_up_to_separators, separator.
    repeat (constructor; [by auto 10|]). constructor. }
  split; [exact H|].
  exact (legalize_name_merges_separators _ _ H).
Defined.

End LegalizerMore.

(** ** Further properties of the symbol table *)

Section SymbolTableMore.
Implicit Types (m : symbol_map) (s k : cstring) (v : Value).

Lemma AddMapping_keeps m s k v v' :
  m !! k = Some v → AddMapping m s v' !! k = Some v.
Proof.
  intros Hk. unfold AddMapping, map_emplace.
  destruct (m !! legalize_name s) eqn:E; [done|].
  rewrite lookup_insert_ne; [done | congruence].
Qed.

Lemma AddMapping_lookup m s k v :
  AddMapping m s v !! k
  = match m !! k with
    | Some w => Some w
    | None => if decide (legalize_name s = k) then Some v else None
    end.
Proof.
  unfold AddMapping, map_emplace.
  destruct (m !! legalize_name s) eqn:E.
  - destruct (m !! k) eqn:Ek; [done|]. rewrite decide_False; [done | congruence].
  - rewrite lookup_insert. case_decide as Hk.
    + subst k. by rewrite E.
    + by destruct (m !! k).
Qed.

(** X5.  [AddMapping] never changes or removes a binding: a name that is
    bound stays bound to the same value whatever is added later. *)
Theorem AddMapping_never_rebinds m s k v v' :
  m !! k = Some v → AddMapping m s v' !! k = Some v.
Proof. apply AddMapping_keeps. Qed.

Lemma AddMapping_never_rebinds_witness :
  AddMapping ∅ (cstr "a:0") (BlockArgument 0) !! cstr "a_colon_0" = Some (BlockArgument 0)
  ∧ AddMapping (AddMapping ∅ (cstr "a:0") (BlockArgument 0)) (cstr "a:0") (OpResult 3 0)
      !! cstr "a_colon_0" = Some (BlockArgument 0).
Proof.
  assert (AddMapping ∅ (cstr "a:0") (BlockArgument 0) !! cstr "a_colon_0"
          = Some (BlockArgument 0)) as H by (by vm_compute).
  split; [exact H|].
  exact (AddMapping_never_rebinds _ (cstr "a:0") _ _ (OpResult 3 0) H).
Defined.

(** X6.  After [AddMapping] has bound a name whose legalized form was
    free, [GetTensorByOnnxName] returns the new value for every name with
    the same legalized form, and answers as before (a value, or
    [std::out_of_range]) for every other name. *)
Theorem GetTensorByOnnxName_after_AddMapping m s s' v :
  m !! legalize_name s = None →
  GetTensorByOnnxName (AddMapping m s v) s'
  = if decide (legalize_name s' = legalize_name s) then Ok v
    else GetTensorByOnnxName m s'.
Proof.
  intros Hfree. unfold GetTensorByOnnxName, map_at.
  rewrite AddMapping_lookup.
  destruct (decide (legalize_name s' = legalize_name s)) as [E|E].
  - rewrite E, Hfree. by rewrite decide_True.
  - destruct (m !! legalize_name s'); [done|].
    rewrite decide_False; [done | congruence].
Qed.

Lemma GetTensorByOnnxName_after_AddMapping_witness :
  (∅ : symbol_map) !! legalize_name (cstr "a/b") = None
  ∧ GetTensorByOnnxName (AddMapping ∅ (cstr "a/b") (BlockArgument 0)) (cstr "a-b")
    = (if decide (legalize_name (cstr "a-b") = legalize_name (cstr "a/b"))
       then Ok (BlockArgument 0)
       else GetTensorByOnnxName ∅ (cstr "a-b")).
Proof.
  split; [reflexivity|].
  exact (GetTensorByOnnxName_after_AddMapping ∅ (cstr "a/b") (cstr "a-b")
           (BlockArgument 0) eq_refl).
Defined.

Lemma foldl_AddMapping_lookup (calls : list (cstring * Value)) m k :
  foldl (λ m call, AddMapping m call.1 call.2) m calls !! k
  = match m !! k with
    | Some w => Some w
    | None => first_call k calls
    end.
Proof.
  revert m. induction calls as [|[s v] calls IH]; intros m.
  - simpl. by destruct (m !! k).
  - cbn [foldl]. rewrite IH, AddMapping_lookup. unfold first_call.
    rewrite filter_cons. cbn [fst snd].
    destruct (m !! k); [done|].
    case_decide; [done|]. done.
Qed.

(** X7.  First binding wins: after any sequence of [AddMapping] calls on
    an empty table, a key is bound to the value of the first call whose
    name legalizes to it, and is unbound if there is no such call. *)
Theorem table_of_first_call (calls : list (cstring * Value)) k :
  table_of calls !! k = first_call k calls.
Proof.
  unfold table_of. rewrite foldl_AddMapping_lookup. by rewrite lookup_empty.
Qed.

End SymbolTableMore.

(** ** Further properties of the importer *)

Section ImportInputsMore.
Implicit Types (s : FrontendGenImpl) (inputs : list ValueInfoProto).

Lemma ImportInputTensorSymbol_fails s (inp : ValueInfoProto) (symbol : Value) :
  frontend_symbols_ s !! legalize_name (name inp) ≠ None →
  ImportInputTensorSymbol inp symbol s = Fail duplicate_input_assertion.
Proof.
  intros H. destruct (frontend_symbols_ s !! legalize_name (name inp)) eqn:E; [|done].
  by eapply ImportInputTensorSymbol_duplicate.
Qed.

Lemma ImportInputs_success inputs (i : nat) s :
  NoDup (legalized_names inputs) →
  (∀ k, k ∈ legalized_names inputs → frontend_symbols_ s !! k = None) →
  ∃ m, ImportInputs inputs i s
       = Ok (tt, {| frontend_symbols_ := m; entryBlock := entryBlock s |})
     ∧ (∀ j k, legalized_names inputs !! j = Some k →
               m !! k = Some (BlockArgument (i + j)))
     ∧ (∀ k, k ∉ legalized_names inputs → m !! k = frontend_symbols_ s !! k).
Proof.
  revert i s. induction inputs as [|inp inputs IH]; intros i s Hnd Hfree.
  - exists (frontend_symbols_ s). split_and!; [by destruct s | done | done].
  - cbn [legalized_names fmap list_fmap] in Hnd, Hfree.
    apply NoDup_cons in Hnd as [Hnotin Hnd].
    cbn [ImportInputs].
    rewrite (bind_Ok _ _ _ _ _
      (ImportInputTensorSymbol_fresh s inp (BlockArgument i)
         (Hfree _ ltac:(left)))).
    set (s1 := {| frontend_symbols_ := _; entryBlock := _ |}).
    destruct (IH (S i) s1 Hnd) as (m & Hrun & Hbound & Hother).
    { intros k Hk. subst s1. simpl. rewrite lookup_insert_ne.
      - apply Hfree. by right.
      - intros <-. done. }
    exists m. split_and!.
    + exact Hrun.
    + intros [|j] k Hj; cbn [legalized_names fmap list_fmap] in Hj; simpl in Hj.
      * injection Hj as <-. rewrite Hother by done. subst s1. simpl.
        rewrite lookup_insert_eq. do 2 f_equal. lia.
      * rewrite (Hbound j k Hj). do 2 f_equal. lia.
    + intros k Hk. cbn [legalized_names fmap list_fmap] in Hk.
      apply not_elem_of_cons in Hk as [Hk1 Hk2].
      rewrite (Hother k Hk2). subst s1. simpl. by rewrite lookup_insert_ne.
Qed.

Lemma ImportInputs_failure inputs (i : nat) s :
  ¬ (NoDup (legalized_names inputs)
     ∧ ∀ k, k ∈ legalized_names inputs → frontend_symbols_ s !! k = None) →
  ImportInputs inputs i s = Fail duplicate_input_assertion.
Proof.
  revert i s. induction inputs as [|inp inputs IH]; intros i s Hnot.
  - destruct Hnot. split; [constructor|]. intros k Hk. by apply elem_of_nil in Hk.
  - cbn [ImportInputs].
    destruct (frontend_symbols_ s !! legalize_name (name inp)) as [v0|] eqn:E.
    + apply bind_Fail. apply ImportInputTensorSymbol_fails. by rewrite E.
    + rewrite (bind_Ok _ _ _ _ _
        (ImportInputTensorSymbol_fresh s inp (BlockArgument i) E)).
      apply IH. intros [Hnd Hfree]. apply Hnot.
      cbn [legalized_names fmap list_fmap].
      assert (legalize_name (name inp) ∉ legalized_names inputs) as Hnotin.
      { intros Hin. specialize (Hfree _ Hin). simpl in Hfree.
        by rewrite lookup_insert_eq in Hfree. }
      split; [by apply NoDup_cons|].
      intros k [->|Hk]%elem_of_cons; [done|].
      specialize (Hfree k Hk). simpl in Hfree.
      rewrite lookup_insert_ne in Hfree; [done|]. intros <-. done.
Qed.

(** X8.  When the legalized names of the inputs are pairwise distinct and
    none is bound yet, the input loop of [ImportGraph] succeeds, binds the
    [j]-th input to the [j]-th block argument, and touches neither the
    other bindings nor the block. *)
Theorem ImportInputs_binds_arguments inputs (i : nat) s :
  NoDup (legalized_names inputs) →
  (∀ k, k ∈ legalized_names inputs → frontend_symbols_ s !! k = None) →
  ∃ m, ImportInputs inputs i s
       = Ok (tt, {| frontend_symbols_ := m; entryBlock := entryBlock s |})
     ∧ (∀ j k, legalized_names inputs !! j = Some k →
               m !! k = Some (BlockArgument (i + j)))
     ∧ (∀ k, k ∉ legalized_names inputs → m !! k = frontend_symbols_ s !! k).
Proof. apply ImportInputs_success. Qed.

(** X9.  When two inputs have the same legalized name, or the legalized
    name of an input is already bound, the input loop stops at the
    assertion on duplicate names. *)
Theorem ImportInputs_rejects_duplicates inputs (i : nat) s :
  ¬ (NoDup (legalized_names inputs)
     ∧ ∀ k, k ∈ legalized_names inputs → frontend_symbols_ s !! k = None) →
  ImportInputs inputs i s = Fail duplicate_input_assertion.
Proof. apply ImportInputs_failure. Qed.

End ImportInputsMore.

Section ImportInputsWitnesses.

Lemma ImportInputs_binds_arguments_witness :
  NoDup (legalized_names [input_x; input_slash])
  ∧ (∀ k, k ∈ legalized_names [input_x; input_slash] →
          frontend_symbols_ empty_importer !! k = None)
  ∧ ∃ m, ImportInputs [input_x; input_slash] 0 empty_importer
         = Ok (tt, {| frontend_symbols_ := m; entryBlock := entryBlock empty_importer |})
       ∧ (∀ j k, legalized_names [input_x; input_slash] !! j = Some k →
                 m !! k = Some (BlockArgument (0 + j)))
       ∧ (∀ k, k ∉ legalized_names [input_x; input_slash] →
               m !! k = frontend_symbols_ empty_importer !! k).
Proof.
  assert (NoDup (legalized_names [input_x; input_slash])) as H1.
  { apply (bool_decide_unpack (NoDup _)). by vm_compute. }
  assert (∀ k, k ∈ legalized_names [input_x; input_slash] →
               frontend_symbols_ empty_importer !! k = None) as H2
    by (intros k _; apply lookup_empty).
  split; [exact H1|]. split; [exact H2|].
  exact (ImportInputs_binds_arguments [input_x; input_slash] 0 empty_importer H1 H2).
Defined.

Lemma ImportInputs_rejects_duplicates_witness :
  ¬ (NoDup (legalized_names [input_slash; input_dash])
     ∧ ∀ k, k ∈ legalized_names [input_slash; input_dash] →
            frontend_symbols_ empty_importer !! k = None)
  ∧ ImportInputs [input_slash; input_dash] 0 empty_importer
    = Fail duplicate_input_assertion.
Proof.
  assert (¬ (NoDup (legalized_names [input_slash; input_dash])
     ∧ ∀ k, k ∈ legalized_names [input_slash; input_dash] →
            frontend_symbols_ empty_importer !! k = None)) as H.
  { intros [Hnd _]. vm_compute in Hnd. apply NoDup_cons in Hnd as [Hnot _].
    apply Hnot. by left. }
  split; [exact H|].
  exact (ImportInputs_rejects_duplicates [input_slash; input_dash] 0 empty_importer H).
Defined.

End ImportInputsWitnesses.

Section ImportOutputsMore.
Implicit Types (s : FrontendGenImpl).

Lemma ImportOutputTensor_spec s (out : ValueInfoProto) (ret_vals : list Value) :
  ImportOutputTensor out ret_vals s
  = match frontend_symbols_ s !! legalize_name (name out) with
    | Some tensor_val => Ok (ret_vals ++ [tensor_val], s)
    | None => Fail output_not_found_assertion
    end.
Proof.
  unfold ImportOutputTensor, bind, get.
  destruct (frontend_symbols_ s !! legalize_name (name out)) as [v|] eqn:E.
  - rewrite (proj2 (ContainKey_spec _ _)) by (rewrite E; eauto). simpl.
    unfold reading, GetTensorByOnnxName, map_at.
    by rewrite legalize_name_involutive, E.
  - by rewrite (proj2 (ContainKey_false _ _)).
Qed.

Lemma ImportOutputs_spec s (outputs : list ValueInfoProto) (ret_vals : list Value) :
  ImportOutputs outputs ret_vals s
  = match mapM (λ k, frontend_symbols_ s !! k) (legalized_names outputs) with
    | Some vals => Ok (ret_vals ++ vals, s)
    | None => Fail output_not_found_assertion
    end.
Proof.
  revert ret_vals. induction outputs as [|out outputs IH]; intros ret_vals.
  - simpl. unfold ret. by rewrite app_nil_r.
  - cbn [ImportOutputs legalized_names fmap list_fmap mapM].
    unfold bind at 1. rewrite ImportOutputTensor_spec.
    destruct (frontend_symbols_ s !! legalize_name (name out)) as [v|]; [|done].
    rewrite IH. cbn [mbind option_bind]. 
    destruct (mapM _ (legalized_names outputs)) as [vals|]; simpl; [|done].
    by rewrite <-app_assoc.
Qed.

(** X10.  [ImportOutputTensor] appends the value bound to the legalized
    name of the output and leaves the importer as it is; for an unbound
    name it stops at the assertion.  (The name is legalized twice on the
    way, once here and once in [GetTensorByOnnxName], which does no harm.) *)
Theorem ImportOutputTensor_looks_up s (out : ValueInfoProto) (ret_vals : list Value) :
  ImportOutputTensor out ret_vals s
  = match frontend_symbols_ s !! legalize_name (name out) with
    | Some tensor_val => Ok (ret_vals ++ [tensor_val], s)
    | None => Fail output_not_found_assertion
    end.
Proof. apply ImportOutputTensor_spec. Qed.

End ImportOutputsMore.

Section ImportNodeMore.
Implicit Types (s : FrontendGenImpl) (node : NodeProto).

Lemma bind_results_spec (op : nat) (outputs : list cstring) (i : nat) s :
  bind_results op outputs i s
  = Ok (tt, {| frontend_symbols_ := bound_results (frontend_symbols_ s) op outputs i;
               entryBlock := entryBlock s |}).
Proof.
  revert i s. induction outputs as [|o outputs IH]; intros i s.
  - by destruct s.
  - cbn [bind_results bound_results]. unfold bind, add_symbol, modify.
    by rewrite IH.
Qed.

Lemma bound_results_keeps (m : symbol_map) (op : nat) (outs : list cstring) (i : nat)
    (k : cstring) (v : Value) :
  m !! k = Some v → bound_results m op outs i !! k = Some v.
Proof.
  revert m i. induction outs as [|o outs IH]; intros m i Hk; [done|].
  simpl. apply IH. by apply AddMapping_keeps.
Qed.

Lemma bound_results_new (m : symbol_map) (op : nat) (outs : list cstring) (i : nat)
    (k : cstring) (v : Value) :
  bound_results m op outs i !! k = Some v →
  m !! k = Some v ∨ ∃ j, v = OpResult op j ∧ i ≤ j < i + length outs.
Proof.
  revert m i. induction outs as [|o outs IH]; intros m i; [by left|].
  simpl. intros [H|(j & -> & Hj)]%IH; [|right; exists j; split; [done|lia]].
  rewrite AddMapping_lookup in H. destruct (m !! k); [by left|].
  case_decide; [|done]. injection H as <-. right. exists i. split; [done|lia].
Qed.

Lemma defined_before_prefix (nargs : nat) (block block' : list Operation) (v : Value) :
  block `prefix_of` block' →
  defined_before nargs block v → defined_before nargs block' v.
Proof.
  intros Hpre. destruct v as [i|op i]; [done|]. simpl.
  intros (o & Ho & Hty). exists o. split; [|done]. by eapply prefix_lookup_Some.
Qed.

Lemma resolved_elem_of (m : symbol_map) (items : list cstring) (v : Value) :
  v ∈ resolved m items → ∃ k, m !! k = Some v.
Proof.
  unfold resolved. intros (item & _ & H)%list_elem_of_omap. eauto.
Qed.

(** What importing one node does: it appends one operation, whose operands
    are among the resolved inputs, and binds results the operation has to
    all the outputs (the generic operation) or to the first one. *)
Lemma ImportNode_effect s s' node :
  ImportNode node s = Ok (tt, s') →
  ∃ op outs,
    entryBlock s' = entryBlock s ++ [op]
    ∧ operands op ⊆ resolved (frontend_symbols_ s) (input node)
    ∧ frontend_symbols_ s'
      = bound_results (frontend_symbols_ s) (length (entryBlock s)) outs 0
    ∧ (∀ i ty, result_type op i = Some ty → ty = f32tensor)
    ∧ (∀ j, j < length outs → is_Some (result_type op j)).
Proof.
  unfold ImportNode, bind at 1. rewrite resolve_inputs_spec. cbn [app].
  set (ins := resolved (frontend_symbols_ s) (input node)).
  repeat case_decide.
  - destruct ins as [|a [|b l]] eqn:Ei; try done.
    destruct (output node) as [|o outs]; [done|].
    intros [= <-]. eexists _, [o]. split_and!; [done| |done| |].
    + intros x; simpl; rewrite ?elem_of_cons, ?elem_of_nil; tauto.
    + intros i ty. simpl. case_decide; [by intros [= <-] | done].
    + intros j Hj. simpl in Hj. assert (j = 0) as -> by lia. simpl. eauto.
  - destruct ins as [|a [|b l]] eqn:Ei; try done.
    destruct (output node) as [|o outs]; [done|].
    intros [= <-]. eexists _, [o]. split_and!; [done| |done| |].
    + intros x; simpl; rewrite ?elem_of_cons, ?elem_of_nil; tauto.
    + intros i ty. simpl. case_decide; [by intros [= <-] | done].
    + intros j Hj. simpl in Hj. assert (j = 0) as -> by lia. simpl. eauto.
  - destruct ins as [|a [|b [|c [|d l]]]] eqn:Ei; try done.
    destruct (output node) as [|o outs]; [done|].
    intros [= <-]. eexists _, [o]. split_and!; [done| |done| |].
    + intros x; simpl; rewrite ?elem_of_cons, ?elem_of_nil; tauto.
    + intros i ty. simpl. case_decide; [by intros [= <-] | done].
    + intros j Hj. simpl in Hj. assert (j = 0) as -> by lia. simpl. eauto.
  - destruct (output node) as [|o outs]; [done|].
    intros [= <-]. eexists _, [o]. split_and!; [done| |done| |].
    + intros x; simpl; rewrite ?elem_of_cons, ?elem_of_nil; tauto.
    + intros i ty. simpl. case_decide; [by intros [= <-] | done].
    + intros j Hj. simpl in Hj. assert (j = 0) as -> by lia. simpl. eauto.
  - unfold bind at 1, create. rewrite bind_results_spec.
    intros [= <-]. eexists _, (output node). split_and!; [done| |done| |].
    + intros x; simpl; rewrite ?elem_of_cons, ?elem_of_nil; tauto.
    + intros i ty. simpl. rewrite list_lookup_fmap.
      destruct (output node !! i); [by intros [= <-] | done].
    + intros j Hj. simpl. apply lookup_lt_is_Some. by rewrite length_fmap.
Qed.

Lemma ImportNodes_effect s s' (nodes : list NodeProto) :
  ImportNodes nodes s = Ok (tt, s') →
  length (entryBlock s') = length (entryBlock s) + length nodes
  ∧ entryBlock s `prefix_of` entryBlock s'
  ∧ (∀ k v, frontend_symbols_ s !! k = Some v → frontend_symbols_ s' !! k = Some v)
  ∧ (∀ nargs, well_formed nargs s → well_formed nargs s')
  ∧ (Forall (λ op, ∀ i ty, result_type op i = Some ty → ty = f32tensor) (entryBlock s) →
     Forall (λ op, ∀ i ty, result_type op i = Some ty → ty = f32tensor) (entryBlock s')).
Proof.
  revert s. induction nodes as [|node nodes IH]; intros s.
  - intros [= <-]. split_and!; [simpl; lia | done | done | done | done].
  - cbn [ImportNodes]. unfold bind at 1.
    destruct (ImportNode node s) as [[[] s1]|] eqn:E1; [|done].
    intros Hrest. apply IH in Hrest as (Hlen & Hpre & Hkeep & Hwf & Hty).
    apply ImportNode_effect in E1
      as (op & outs & Hblock & Hops & Hsyms & Hopty & Hres).
    rewrite Hblock, length_app in Hlen. simpl in Hlen.
    split_and!.
    + simpl. lia.
    + etrans; [|exact Hpre]. rewrite Hblock. by apply prefix_app_r.
    + intros k v Hk. apply Hkeep. rewrite Hsyms. by apply bound_results_keeps.
    + intros nargs [Hvals Hblockwf]. apply Hwf. split.
      * intros k v. rewrite Hsyms, Hblock.
        intros [Hold|(j & -> & Hj)]%bound_results_new.
        -- eapply defined_before_prefix; [|exact (Hvals k v Hold)].
           by apply prefix_app_r.
        -- simpl. exists op. split; [|apply Hres; lia].
           by rewrite lookup_app_r, Nat.sub_diag.
      * intros i op'. rewrite Hblock. intros Hi.
        apply lookup_app_Some in Hi as [Hi|[Hge Hi]].
        -- rewrite take_app_le by (apply lookup_lt_Some in Hi; lia).
           by apply Hblockwf.
        -- apply list_lookup_singleton_Some in Hi as [Hi0 <-].
           assert (i = length (entryBlock s)) as -> by lia.
           rewrite take_app_length. apply Forall_forall. intros v Hv.
           destruct (resolved_elem_of _ _ _ (Hops v Hv)) as [k Hk].
           exact (Hvals k v Hk).
    + intros Hall. apply Hty. rewrite Hblock. apply Forall_app. split; [done|].
      by apply Forall_singleton.
Qed.

(** X11.  Every node the importer gets through adds exactly one operation
    to the block, after those already there, and no binding of the symbol
    table is changed or removed on the way. *)
Theorem ImportNodes_one_operation_per_node s s' (nodes : list NodeProto) :
  ImportNodes nodes s = Ok (tt, s') →
  length (entryBlock s') = length (entryBlock s) + length nodes
  ∧ entryBlock s `prefix_of` entryBlock s'
  ∧ (∀ k v, frontend_symbols_ s !! k = Some v → frontend_symbols_ s' !! k = Some v).
Proof.
  intros H. apply ImportNodes_effect in H as (? & ? & ? & _ & _). done.
Qed.

Lemma well_formed_inputs (inputs : list ValueInfoProto) (i nargs : nat) s s' :
  i + length inputs ≤ nargs →
  well_formed nargs s → ImportInputs inputs i s = Ok (tt, s') → well_formed nargs s'.
Proof.
  revert i s. induction inputs as [|inp inputs IH]; intros i s Hlen Hwf.
  - by intros [= <-].
  - cbn [ImportInputs]. unfold bind at 1. simpl in Hlen.
    destruct (frontend_symbols_ s !! legalize_name (name inp)) as [v0|] eqn:E.
    + by rewrite (ImportInputTensorSymbol_duplicate s inp _ v0 E).
    + rewrite (ImportInputTensorSymbol_fresh s inp _ E). apply IH; [lia|].
      destruct Hwf as [Hvals Hops]. split; [|exact Hops].
      intros k v. simpl. rewrite lookup_insert. case_decide.
      * intros [= <-]. simpl. lia.
      * apply Hvals.
Qed.

(** X12.  Values are defined before they are used: after the inputs and
    the nodes of a graph were imported into a fresh importer, every operand
    of every operation is the block argument of one of the graph inputs or
    a result that an earlier operation of the block has, and every bound
    name stands for such an argument or for a result that an operation of
    the block has. *)
Theorem imported_operands_are_defined_earlier (inputs : list ValueInfoProto)
    (nodes : list NodeProto) s' :
  (do _ <- ImportInputs inputs 0; ImportNodes nodes) empty_importer = Ok (tt, s') →
  well_formed (length inputs) s'.
Proof.
  unfold bind.
  destruct (ImportInputs inputs 0 empty_importer) as [[[] s1]|] eqn:E1; [|done].
  intros H. apply ImportNodes_effect in H as (_ & _ & _ & Hwf & _). apply Hwf.
  eapply (well_formed_inputs inputs 0); [simpl; lia| |exact E1].
  split.
  - intros k v H. simpl in H. by rewrite lookup_empty in H.
  - intros i op H. simpl in H. by rewrite lookup_nil in H.
Qed.

End ImportNodeMore.

Section ImportNodeWitnesses.
Implicit Types (s : FrontendGenImpl) (node : NodeProto).

Lemma ImportNodes_one_operation_per_node_witness :
  ∃ s', ImportNodes [add_node; relu_node] x_state = Ok (tt, s')
    ∧ length (entryBlock s') = length (entryBlock x_state) + length [add_node; relu_node]
    ∧ entryBlock x_state `prefix_of` entryBlock s'
    ∧ (∀ k v, frontend_symbols_ x_state !! k = Some v →
              frontend_symbols_ s' !! k = Some v).
Proof.
  eexists. 
  assert (ImportNodes [add_node; relu_node] x_state = Ok (tt, _)) as H
    by (vm_compute; reflexivity).
  split; [exact H|].
  exact (ImportNodes_one_operation_per_node x_state _ [add_node; relu_node] H).
Defined.

Lemma imported_operands_are_defined_earlier_witness :
  ∃ s', (do _ <- ImportInputs [input_x] 0; ImportNodes [add_node; relu_node])
          empty_importer = Ok (tt, s')
    ∧ well_formed (length [input_x]) s'.
Proof.
  eexists.
  assert ((do _ <- ImportInputs [input_x] 0; ImportNodes [add_node; relu_node])
            empty_importer = Ok (tt, _)) as H by (vm_compute; reflexivity).
  split; [exact H|].
  exact (imported_operands_are_defined_earlier [input_x] [add_node; relu_node] _ H).
Defined.

(** X13.  An Add or MatMul node is built from the first two resolved
    operands, whatever follows them, and binds its first output only; with
    fewer than two resolved operands, or without an output to name, the
    import reads past the end of a vector. *)
Theorem binary_node_takes_first_two_operands s node :
  op_type node = cstr "Add" ∨ op_type node = cstr "MatMul" →
  ImportNode node s
  = match resolved (frontend_symbols_ s) (input node), output node with
    | a :: b :: _, o :: _ =>
        Ok (tt, {| frontend_symbols_ :=
                     AddMapping (frontend_symbols_ s) (legalize_name o)
                       (OpResult (length (entryBlock s)) 0);
                   entryBlock := entryBlock s ++
                     [if decide (op_type node = cstr "Add")
                      then ONNXAddOp f32tensor a b
                      else ONNXMatMulOp f32tensor a b] |})
    | _, _ => Fail OutOfBounds
    end.
Proof.
  intros Hop. unfold ImportNode, bind at 1. rewrite resolve_inputs_spec. cbn [app].
  destruct Hop as [Hop|Hop]; rewrite Hop.
  - rewrite !decide_True by done.
    destruct (resolved _ _) as [|a [|b l]]; try done.
    by destruct (output node).
  - rewrite !decide_False by (vm_compute; discriminate).
    rewrite decide_True by done.
    destruct (resolved _ _) as [|a [|b l]]; try done.
    by destruct (output node).
Qed.

Lemma binary_node_takes_first_two_operands_witness :
  (op_type add_node = cstr "Add" ∨ op_type add_node = cstr "MatMul")
  ∧ ImportNode add_node x_state
    = Ok (tt, {| frontend_symbols_ :=
                   AddMapping (frontend_symbols_ x_state) (legalize_name (cstr "y"))
                     (OpResult 0 0);
                 entryBlock := [ONNXAddOp f32tensor (BlockArgument 0) (BlockArgument 0)] |}).
Proof.
  assert (op_type add_node = cstr "Add" ∨ op_type add_node = cstr "MatMul") as H
    by (left; reflexivity).
  split; [exact H|].
  exact (binary_node_takes_first_two_operands x_state add_node H).
Defined.

Lemma bound_results_lookup (m : symbol_map) (op : nat) (outs : list cstring) (i : nat) :
  NoDup (legalize_name <$> outs) →
  (∀ o, o ∈ outs → m !! legalize_name o = None) →
  ∀ j o, outs !! j = Some o →
    bound_results m op outs i !! legalize_name o = Some (OpResult op (i + j)).
Proof.
  revert m i. induction outs as [|o0 outs IH]; intros m i Hnd Hfree j o Hj; [done|].
  cbn [fmap list_fmap] in Hnd. apply NoDup_cons in Hnd as [Hnotin Hnd].
  cbn [bound_results].
  assert (AddMapping m (legalize_name o0) (OpResult op i)
          = <[legalize_name o0 := OpResult op i]> m) as ->.
  { rewrite AddMapping_fresh; rewrite legalize_name_involutive; [done|].
    apply Hfree. by left. }
  destruct j as [|j]; simpl in Hj.
  - injection Hj as <-. apply bound_results_keeps.
    rewrite lookup_insert_eq. do 2 f_equal. lia.
  - rewrite (IH _ (S i) Hnd) with (j := j); [do 2 f_equal; lia| |done].
    intros o' Ho'. rewrite lookup_insert_ne.
    + apply Hfree. by right.
    + intros E. apply Hnotin. rewrite E. apply list_elem_of_fmap. eauto.
Qed.

(** X14.  After a node with an op-code other than Add, MatMul and Gemm
    was imported, each of its output names resolves to the result of the
    same position of the generic operation, provided the legalized output
    names are pairwise distinct and were free. *)
Theorem generic_node_outputs_resolve s node :
  op_type node ≠ cstr "Add" → op_type node ≠ cstr "MatMul" →
  op_type node ≠ cstr "Gemm" →
  NoDup (legalize_name <$> output node) →
  (∀ o, o ∈ output node → frontend_symbols_ s !! legalize_name o = None) →
  ∃ s', ImportNode node s = Ok (tt, s')
    ∧ ∀ j o, output node !! j = Some o →
        GetTensorByOnnxName (frontend_symbols_ s') o
        = Ok (OpResult (length (entryBlock s)) j).
Proof.
  intros H1 H2 H3 Hnd Hfree. unfold ImportNode, bind at 1.
  rewrite resolve_inputs_spec. cbn [app]. rewrite !decide_False by done.
  unfold bind at 1, create. rewrite bind_results_spec.
  eexists. split; [reflexivity|]. intros j o Hj. simpl.
  unfold GetTensorByOnnxName, map_at.
  by rewrite (bound_results_lookup _ _ _ 0 Hnd Hfree j o Hj).
Qed.

Lemma generic_node_outputs_resolve_witness :
  op_type relu_node ≠ cstr "Add" ∧ op_type relu_node ≠ cstr "MatMul"
  ∧ op_type relu_node ≠ cstr "Gemm"
  ∧ NoDup (legalize_name <$> output relu_node)
  ∧ (∀ o, o ∈ output relu_node → frontend_symbols_ x_state !! legalize_name o = None)
  ∧ ∃ s', ImportNode relu_node x_state = Ok (tt, s')
      ∧ ∀ j o, output relu_node !! j = Some o →
          GetTensorByOnnxName (frontend_symbols_ s') o
          = Ok (OpResult (length (entryBlock x_state)) j).
Proof.
  assert (op_type relu_node ≠ cstr "Add") as H1 by (vm_compute; discriminate).
  assert (op_type relu_node ≠ cstr "MatMul") as H2 by (vm_compute; discriminate).
  assert (op_type relu_node ≠ cstr "Gemm") as H3 by (vm_compute; discriminate).
  assert (NoDup (legalize_name <$> output relu_node)) as H4
    by (apply (bool_decide_unpack (NoDup _)); by vm_compute).
  assert (∀ o, o ∈ output relu_node →
               frontend_symbols_ x_state !! legalize_name o = None) as H5.
  { intros o Ho. unfold relu_node in Ho. simpl in Ho.
    apply elem_of_cons in Ho as [->|Ho]; [by vm_compute|].
    apply elem_of_cons in Ho as [->|Ho]; [by vm_compute|].
    by apply elem_of_nil in Ho. }
  split; [exact H1|]. split; [exact H2|]. split; [exact H3|].
  split; [exact H4|]. split; [exact H5|].
  exact (generic_node_outputs_resolve x_state relu_node H1 H2 H3 H4 H5).
Defined.

End ImportNodeWitnesses.

(** ** Input types and the whole graph *)

Section InputTypes.

(** X15.  [TypeConvert] forgets signedness and nothing else: two different
    codes convert to the same type exactly when they are the signed and the
    unsigned code of one width; and the codes without a type ([nullptr])
    are STRING, COMPLEX64, COMPLEX128 and UNDEFINED. *)
Theorem TypeConvert_forgets_signedness (t t' : TensorProto_DataType) :
  (t ≠ t' → is_Some (TypeConvert t) →
   (TypeConvert t = TypeConvert t' ↔ same_width_integers t t'))
  ∧ (TypeConvert t = None
     ↔ t = TensorProto_DataType_STRING ∨ t = TensorProto_DataType_COMPLEX64
       ∨ t = TensorProto_DataType_COMPLEX128 ∨ t = TensorProto_DataType_UNDEFINED).
Proof.
  split.
  - intros Hne [ty Hty].
    destruct t, t'; simpl in *; try done; split; try done; try discriminate.
  - destruct t; simpl; split; try done; intros H; try discriminate;
      try (destruct H as [H|[H|[H|H]]]; discriminate); auto.
Qed.

Lemma import_dim_exact (dims : list Z) (v : Z) :
  import_dim dims v
  = dims ++ [if decide (0 < wrap 32 v)%Z then wrap 32 v else (-1)%Z].
Proof.
  unfold import_dim. case_decide as Hv.
  - destruct (Z.ltb_spec 0 (wrap 32 v)) as [Hpos|Hneg].
    + by rewrite decide_True.
    + by rewrite decide_False by lia.
  - assert (v = 0%Z) as -> by lia. change (wrap 32 0) with 0%Z.
    by rewrite decide_False by lia.
Qed.

Lemma import_dims_exact (vs dims0 : list Z) :
  foldl import_dim dims0 vs
  = dims0 ++ ((λ v, if decide (0 < wrap 32 v)%Z then wrap 32 v else (-1)%Z) <$> vs).
Proof.
  revert dims0. induction vs as [|v vs IH]; intros dims0.
  - by rewrite app_nil_r.
  - cbn [foldl fmap list_fmap]. rewrite import_dim_exact, IH.
    by rewrite <-app_assoc.
Qed.

(** The low 32 bits of [k * 2^32 + r], read as an [int], are [r]. *)
Lemma wrap_32_low_bits (k r : Z) :
  (- 2 ^ 31 ≤ r < 2 ^ 31)%Z → wrap 32 (k * 2 ^ 32 + r) = r.
Proof.
  intros Hr. replace (k * 2 ^ 32 + r)%Z with (r + k * 2 ^ 32)%Z by lia.
  rewrite wrap_add_multiple. apply wrap_small; simpl; lia.
Qed.

(** X16.  [ImportInputTensorType] appends one tensor type, with one
    dimension for each declared dimension.  A declared extent is first cut
    down to an [int], that is to its low 32 bits: written as
    [k * 2^32 + r] with [r] between -2^31 and 2^31 - 1, the extent is
    recorded as [r] when [r] is positive and as the unknown extent -1 when
    it is not.  So an extent between 1 and 2^31 - 1 is kept, an extent
    between -2^31 and 0 becomes -1, and an extent such as 2^32 + 7 is
    recorded as 7.  The element type is whatever [TypeConvert] gives, also
    when that is no type at all. *)
Theorem ImportInputTensorType_dimensions (inp : InputProto)
    (arg_types : list RankedTensorType) :
  ∃ dims,
    ImportInputTensorType inp arg_types
    = arg_types ++ [ {| tensor_dims := dims;
                        elementType := TypeConvert (tensor_elem_type inp) |} ]
    ∧ Forall2 (λ v d,
         d = (if decide (0 < wrap 32 v)%Z then wrap 32 v else (-1)%Z)
         ∧ (∀ k r, v = (k * 2 ^ 32 + r)%Z → (0 < r < 2 ^ 31)%Z → d = r)
         ∧ (∀ k r, v = (k * 2 ^ 32 + r)%Z → (- 2 ^ 31 ≤ r ≤ 0)%Z → d = (-1)%Z)
         ∧ ((0 < v < 2 ^ 31)%Z → d = v)
         ∧ ((- 2 ^ 31 ≤ v ≤ 0)%Z → d = (-1)%Z)
         ∧ (d = (-1)%Z ∨ (0 < d < 2 ^ 31)%Z)) (dim_values inp) dims.
Proof.
  unfold ImportInputTensorType. rewrite import_dims_exact. cbn [app].
  eexists. split; [reflexivity|].
  apply Forall2_fmap_r, Forall_Forall2_diag, Forall_forall. intros v _.
  assert (∀ k r, v = (k * 2 ^ 32 + r)%Z → (0 < r < 2 ^ 31)%Z →
            (if decide (0 < wrap 32 v)%Z then wrap 32 v else (-1)%Z) = r) as Hpos.
  { intros k r -> Hr. rewrite wrap_32_low_bits by lia. by rewrite decide_True by lia. }
  assert (∀ k r, v = (k * 2 ^ 32 + r)%Z → (- 2 ^ 31 ≤ r ≤ 0)%Z →
            (if decide (0 < wrap 32 v)%Z then wrap 32 v else (-1)%Z) = (-1)%Z) as Hneg.
  { intros k r -> Hr. rewrite wrap_32_low_bits by lia. by rewrite decide_False by lia. }
  split_and!; [done | exact Hpos | exact Hneg | | |].
  - intros Hv. apply (Hpos 0%Z v); lia.
  - intros Hv. apply (Hneg 0%Z v); lia.
  - pose proof (wrap_range 32 v ltac:(lia)) as Hr. simpl in Hr.
    case_decide; [right; lia | by left].
Qed.

Lemma arg_types_length (inputs : list InputProto) (acc : list RankedTensorType) :
  length (foldl (λ acc inp, ImportInputTensorType inp acc) acc inputs)
  = length acc + length inputs.
Proof.
  revert acc. induction inputs as [|inp inputs IH]; intros acc; simpl; [lia|].
  rewrite IH. unfold ImportInputTensorType. rewrite length_app. simpl. lia.
Qed.

End InputTypes.

Section Graph.

Lemma types_of_spec (arg_types : list RankedTensorType) (block : list Operation)
    (vals : list Value) (ts : list ValueType) :
  foldr (λ v acc, try t <- getType arg_types block v; try ts <- acc; Ok (t :: ts))
    (Ok []) vals = Ok ts →
  Forall2 (λ v t, getType arg_types block v = Ok t) vals ts.
Proof.
  revert ts. induction vals as [|v vals IH]; intros ts; simpl.
  - intros [= <-]. constructor.
  - destruct (getType arg_types block v) as [t|] eqn:Et; [|done]. simpl.
    destruct (foldr _ _ vals) as [ts'|]; [|done]. simpl.
    intros [= <-]. constructor; [done|]. by apply IH.
Qed.

Lemma mapM_lookup_Forall2 (m : symbol_map) (ks : list cstring) (vals : list Value) :
  mapM (λ k, m !! k) ks = Some vals → Forall2 (λ k v, m !! k = Some v) ks vals.
Proof. intros H. by apply mapM_Some_1 in H. Qed.

(** X17.  What a successful [ImportGraph] on a fresh importer has built:
    a function with the given name, one parameter type for each graph
    input and one operation for each node; each graph input is bound to
    the block argument of its position; the return operands are, in order,
    the values bound to the legalized names of the graph outputs; and the
    result types are the types of these values, the unranked 32-bit float
    tensor type for every value that is the result of an operation. *)
Theorem ImportGraph_builds_function (graph : GraphProto) (fname : cstring)
    (f : FuncOp) (s' : FrontendGenImpl) :
  ImportGraph graph fname empty_importer = Ok (f, s') →
  sym_name f = fname
  ∧ length (func_inputs f) = length (graph_input graph)
  ∧ func_body f = entryBlock s'
  ∧ length (func_body f) = length (graph_node graph)
  ∧ (∀ j inp, graph_input graph !! j = Some inp →
       frontend_symbols_ s' !! legalize_name (name (value_info inp))
       = Some (BlockArgument j))
  ∧ Forall2 (λ out v, frontend_symbols_ s' !! legalize_name (name out) = Some v)
      (graph_output graph) (return_operands f)
  ∧ Forall2 (λ v t, getType (func_inputs f) (func_body f) v = Ok t
                    ∧ ∀ op i, v = OpResult op i → t = OtherType f32tensor)
      (return_operands f) (func_results f).
Proof.
  unfold ImportGraph.
  set (ins := value_info <$> graph_input graph).
  set (arg_types := foldl _ [] (graph_input graph)).
  intros Hrun.
  destruct (decide (NoDup (legalized_names ins))) as [Hnd|Hnd]; cycle 1.
  { rewrite (bind_Fail _ _ _ duplicate_input_assertion) in Hrun; [done|].
    apply ImportInputs_failure. tauto. }
  destruct (ImportInputs_success ins 0 empty_importer Hnd)
    as (m1 & E1 & Hargs & _); [intros; apply lookup_empty|].
  rewrite (bind_Ok _ _ _ _ _ E1) in Hrun. clear E1.
  set (s1 := {| frontend_symbols_ := m1; entryBlock := _ |}) in *.
  unfold bind at 1 in Hrun.
  destruct (ImportNodes (graph_node graph) s1) as [[[] s2]|] eqn:E2; [|done].
  apply ImportNodes_effect in E2 as (Hlen & _ & Hkeep & _ & Hty).
  unfold bind at 1 in Hrun. rewrite ImportOutputs_spec in Hrun.
  destruct (mapM _ (legalized_names (graph_output graph))) as [vals|] eqn:Evals;
    [|done].
  apply mapM_lookup_Forall2 in Evals.
  unfold bind at 1, get in Hrun. unfold bind, reading, ret in Hrun.
  destruct (foldr _ _ ([] ++ vals)) as [ts|] eqn:Ets; [|done].
  injection Hrun as <- <-. cbn [sym_name func_inputs func_body return_operands func_results].
  apply types_of_spec in Ets. simpl in Ets.
  split_and!.
  - done.
  - subst arg_types. by rewrite arg_types_length.
  - done.
  - rewrite Hlen. subst s1. simpl. done.
  - intros j inp Hj. apply Hkeep. subst s1. simpl.
    apply (Hargs j). unfold legalized_names, ins.
    rewrite !list_lookup_fmap, Hj. done.
  - simpl. unfold legalized_names in Evals. by apply Forall2_fmap_l in Evals.
  - simpl. eapply Forall2_impl; [exact Ets|]. intros v t Ht. split; [done|].
    intros op i ->. simpl in Ht.
    destruct (entryBlock s2 !! op) as [o|] eqn:Eo; simpl in Ht; [|done].
    destruct (result_type o i) as [ty|] eqn:Ety; [|done].
    injection Ht as <-. f_equal.
    specialize (Hty ltac:(subst s1; simpl; constructor)).
    eapply (proj1 (Forall_forall _ _) Hty o); [|exact Ety].
    apply list_elem_of_lookup. eauto.
Qed.

Lemma ImportGraph_builds_function_witness :
  ∃ f s', ImportGraph example_graph (cstr "main") empty_importer = Ok (f, s')
  ∧ sym_name f = cstr "main"
  ∧ length (func_inputs f) = length (graph_input example_graph)
  ∧ func_body f = entryBlock s'
  ∧ length (func_body f) = length (graph_node example_graph)
  ∧ (∀ j inp, graph_input example_graph !! j = Some inp →
       frontend_symbols_ s' !! legalize_name (name (value_info inp))
       = Some (BlockArgument j))
  ∧ Forall2 (λ out v, frontend_symbols_ s' !! legalize_name (name out) = Some v)
      (graph_output example_graph) (return_operands f)
  ∧ Forall2 (λ v t, getType (func_inputs f) (func_body f) v = Ok t
                    ∧ ∀ op i, v = OpResult op i → t = OtherType f32tensor)
      (return_operands f) (func_results f).
Proof.
  eexists _, _.
  assert (ImportGraph example_graph (cstr "main") empty_importer = Ok (_, _)) as H
    by (vm_compute; reflexivity).
  split; [exact H|].
  exact (ImportGraph_builds_function example_graph (cstr "main") _ _ H).
Defined.

End Graph.

(** ** Further properties of the tensor runtime *)

Section NumElemsMore.
Implicit Types (h : heap) (t : OMTensor).

Lemma omTensorGetNumElems_value h (tensor : ptr) t (shape strides : list Z) :
  load_tensor h tensor = Ok t →
  load_cells h (_shape t) (_rank t) = Ok shape →
  load_cells h (_stride t) (_rank t) = Ok strides →
  omTensorGetNumElems h tensor
  = if decide (strides = dense_strides shape)
    then Ok (wrap64 (product shape)) else Fail dense_assertion.
Proof.
  intros Ht Hsh Hst.
  destruct (load_cells_length _ _ _ _ Hsh) as [Hr Hlsh].
  destruct (load_cells_length _ _ _ _ Hst) as [_ Hlst].
  unfold omTensorGetNumElems. rewrite Ht. cbn [res_bind].
  rewrite (check_dense_spec _ _ _ _ _ Hsh Hst) by lia.
  rewrite !take_ge by (rewrite ?length_dense_strides; lia).
  case_decide; [|done]. cbn [res_bind]. unfold getNumOfElems.
  rewrite Z.max_r by lia. rewrite Hsh. cbn [res_bind].
  by rewrite foldl_mul64_1.
Qed.

Lemma tensor_at_loads h (tensor : ptr) t (sh st : list Z) :
  tensor_at h tensor t sh st →
  _rank t = Z.of_nat (length sh) → length st = length sh →
  load_tensor h tensor = Ok t
  ∧ load_cells h (_shape t) (_rank t) = Ok sh
  ∧ load_cells h (_stride t) (_rank t) = Ok st.
Proof.
  intros (Ht & Hsh & Hst & _) Hrank Hlen. split_and!.
  - by apply load_tensor_Ok.
  - rewrite Hrank. by apply load_cells_Ok.
  - rewrite Hrank, <-Hlen. by apply load_cells_Ok.
Qed.

(** X18.  A descriptor fresh from [omTensorCreate] passes the density
    check: [omTensorGetNumElems] on it never stops at the assertion and
    returns the product of the extents (as an [int64_t]). *)
Theorem omTensorGetNumElems_after_create h (data_ptr : ptr) (shape : list Z)
    (dtype : OM_DATA_TYPE) :
  mallocs_succeed 3 h →
  ∃ tensor h',
    omTensorCreate data_ptr shape (Z.of_nat (length shape)) dtype h = Ok (tensor, h')
    ∧ omTensorGetNumElems h' tensor = Ok (wrap64 (product shape)).
Proof.
  intros Hm.
  destruct (omTensorCreate_spec h data_ptr shape dtype Hm) as (h' & t & Hrun & Hat & Et).
  exists (brk h + 1)%N, h'. split; [done|].
  destruct (tensor_at_loads h' _ t _ _ Hat) as (Ht & Hsh & Hst);
    [by subst t | apply length_dense_strides |].
  rewrite (omTensorGetNumElems_value _ _ _ _ _ Ht Hsh Hst). by rewrite decide_True.
Qed.

Lemma omTensorGetNumElems_after_create_witness :
  mallocs_succeed 3 empty_heap
  ∧ ∃ tensor h',
      omTensorCreate 7%N [2; 0; 5]%Z (Z.of_nat (length [2; 0; 5]%Z)) ONNX_TYPE_INT32
        empty_heap = Ok (tensor, h')
      ∧ omTensorGetNumElems h' tensor = Ok (wrap64 (product [2; 0; 5]%Z)).
Proof.
  assert (mallocs_succeed 3 empty_heap) as H by (vm_compute; constructor).
  split; [exact H|].
  exact (omTensorGetNumElems_after_create empty_heap 7%N [2; 0; 5]%Z ONNX_TYPE_INT32 H).
Defined.

End NumElemsMore.

Section Setters.
Variables (tensor : ptr) (t : OMTensor).






End Setters.

Section SettersWitnesses.




End SettersWitnesses.

Section Ownership.
Implicit Types (h : heap) (t : OMTensor).

(** X21.  [omTensorDestroy] frees the descriptor, frees the data buffer
    exactly when the descriptor owns it, and leaves every other block as it
    is, the shape and stride arrays among them; a second call on the same
    pointer reads a freed descriptor. *)
Theorem omTensorDestroy_frees h (tensor : ptr) t :
  load_tensor h tensor = Ok t →
  tensor ≠ NULL →
  (_owning t ≠ 0%Z →
     _allocatedPtr t ≠ tensor
     ∧ (_allocatedPtr t = NULL ∨ is_Some (blocks h !! _allocatedPtr t))) →
  ∃ h', omTensorDestroy tensor h = Ok (tt, h')
    ∧ blocks h' !! tensor = None
    ∧ (_owning t ≠ 0%Z → _allocatedPtr t ≠ NULL → blocks h' !! _allocatedPtr t = None)
    ∧ (∀ p, p ≠ tensor → (_owning t = 0%Z ∨ p ≠ _allocatedPtr t) →
            blocks h' !! p = blocks h !! p)
    ∧ omTensorDestroy tensor h' = Fail OutOfBounds.
Proof.
  intros Ht Hnn Hown.
  assert (blocks h !! tensor = Some (Struct t)) as Hb.
  { unfold load_tensor in Ht. destruct (blocks h !! tensor) as [[|]|]; congruence. }
  unfold omTensorDestroy at 1.
  rewrite (bind_Ok _ _ h h t) by (by apply reading_Ok).
  assert (∀ h1, blocks h1 !! tensor = None → omTensorDestroy tensor h1 = Fail OutOfBounds)
    as Hagain.
  { intros h1 H1. unfold omTensorDestroy, bind, reading, load_tensor. by rewrite H1. }
  destruct (decide (_owning t ≠ 0%Z)) as [Ho|Ho].
  - destruct (Hown Ho) as [Hne Hlive].
    assert (∃ h1, free (_allocatedPtr t) h = Ok (tt, h1)
              ∧ blocks h1 !! tensor = Some (Struct t)
              ∧ (_allocatedPtr t ≠ NULL → blocks h1 !! _allocatedPtr t = None)
              ∧ (∀ p, p ≠ _allocatedPtr t → blocks h1 !! p = blocks h !! p))
      as (h1 & Hfree & Ht1 & Hgone & Hframe).
    { unfold free. case_decide as Hnull.
      - exists h. split_and!; done.
      - destruct Hlive as [?|[b Hb']]; [done|]. rewrite Hb'.
        eexists. split; [reflexivity|]. simpl. split_and!.
        + by rewrite lookup_delete_ne.
        + intros _. by rewrite lookup_delete_eq.
        + intros p Hp. by rewrite lookup_delete_ne. }
    erewrite bind_Ok; cycle 1.
    { erewrite bind_Ok by exact Hfree. by apply update_tensor_Ok. }
    unfold free. rewrite decide_False by done. simpl. rewrite lookup_insert_eq.
    eexists. split; [reflexivity|]. simpl. split_and!.
    + by rewrite lookup_delete_eq.
    + intros _ Hnull. rewrite lookup_delete_ne, lookup_insert_ne by done. auto.
    + intros p Hp [Hz|Hp2]; [done|].
      rewrite lookup_delete_ne, lookup_insert_ne by done. auto.
    + apply Hagain. simpl. by rewrite lookup_delete_eq.
  - rewrite (bind_Ok _ _ h h tt) by done.
    unfold free. rewrite decide_False by done. rewrite Hb.
    eexists. split; [reflexivity|]. simpl. split_and!.
    + by rewrite lookup_delete_eq.
    + done.
    + intros p Hp _. by rewrite lookup_delete_ne.
    + apply Hagain. simpl. by rewrite lookup_delete_eq.
Qed.

(** X22.  [omTensorSetPtr] frees the data buffer the descriptor owned, if
    any, before it takes the new pointers and the new ownership flag; a
    null aligned pointer stands for the allocated pointer; a buffer that
    was not owned, and every other block, stays as it is. *)
Theorem omTensorSetPtr_releases_owned_buffer h (tensor : ptr) t (owning : Z)
    (allocatedPtr alignedPtr : ptr) :
  load_tensor h tensor = Ok t →
  (_owning t ≠ 0%Z →
     _allocatedPtr t ≠ tensor
     ∧ (_allocatedPtr t = NULL ∨ is_Some (blocks h !! _allocatedPtr t))) →
  ∃ h', omTensorSetPtr tensor owning allocatedPtr alignedPtr h = Ok (tt, h')
    ∧ load_tensor h' tensor
      = Ok (mkOMTensor allocatedPtr
              (if decide (alignedPtr ≠ NULL) then alignedPtr else allocatedPtr)
              (_offset t) (_shape t) (_stride t) (_rank t) (_dataType t) owning)
    ∧ omTensorGetAllocatedPtr h' tensor = Ok allocatedPtr
    ∧ omTensorGetDataPtr h' tensor
      = Ok (if decide (alignedPtr ≠ NULL) then alignedPtr else allocatedPtr)
    ∧ (_owning t ≠ 0%Z → _allocatedPtr t ≠ NULL → blocks h' !! _allocatedPtr t = None)
    ∧ (∀ p, p ≠ tensor → (_owning t = 0%Z ∨ p ≠ _allocatedPtr t) →
            blocks h' !! p = blocks h !! p).
Proof.
  intros Ht Hown.
  assert (blocks h !! tensor = Some (Struct t)) as Hb.
  { unfold load_tensor in Ht. destruct (blocks h !! tensor) as [[|]|]; congruence. }
  unfold omTensorSetPtr.
  rewrite (bind_Ok _ _ h h t) by (by apply reading_Ok).
  assert (∃ h1, (if decide (_owning t ≠ 0%Z) then free (_allocatedPtr t) else ret tt) h
                = Ok (tt, h1)
            ∧ blocks h1 !! tensor = Some (Struct t)
            ∧ (_owning t ≠ 0%Z → _allocatedPtr t ≠ NULL →
               blocks h1 !! _allocatedPtr t = None)
            ∧ (∀ p, (_owning t = 0%Z ∨ p ≠ _allocatedPtr t) →
                    blocks h1 !! p = blocks h !! p))
    as (h1 & Hfree & Ht1 & Hgone & Hframe).
  { case_decide as Ho.
    - destruct (Hown Ho) as [Hne Hlive]. unfold free. case_decide as Hnull.
      + exists h. split_and!; done.
      + destruct Hlive as [?|[b Hb']]; [done|]. rewrite Hb'.
        eexists. split; [reflexivity|]. simpl. split_and!.
        * by rewrite lookup_delete_ne.
        * intros _ _. by rewrite lookup_delete_eq.
        * intros p [?|Hp]; [done|]. by rewrite lookup_delete_ne.
    - exists h. split_and!; done. }
  rewrite (bind_Ok _ _ _ _ _ Hfree).
  destruct (update_tensor_at h1 tensor t (λ t, with_owning t owning) 0 Ht1)
    as (h2 & E2 & B2 & _); [by apply Forall_nil|].
  rewrite (bind_Ok _ _ _ _ _ E2).
  assert (blocks h2 !! tensor = Some (Struct (with_owning t owning))) as Ht2
    by (rewrite B2; apply lookup_insert_eq).
  destruct (update_tensor_at h2 tensor _ (λ t, with_allocatedPtr t allocatedPtr) 0 Ht2)
    as (h3 & E3 & B3 & _); [by apply Forall_nil|].
  rewrite (bind_Ok _ _ _ _ _ E3).
  assert (blocks h3 !! tensor
          = Some (Struct (with_allocatedPtr (with_owning t owning) allocatedPtr))) as Ht3
    by (rewrite B3; apply lookup_insert_eq).
  assert (∀ q, ∃ h',
    update_tensor tensor (λ t, with_alignedPtr t q) h3 = Ok (tt, h')
    ∧ load_tensor h' tensor
      = Ok (mkOMTensor allocatedPtr q (_offset t) (_shape t) (_stride t) (_rank t)
              (_dataType t) owning)
    ∧ omTensorGetAllocatedPtr h' tensor = Ok allocatedPtr
    ∧ omTensorGetDataPtr h' tensor = Ok q
    ∧ (_owning t ≠ 0%Z → _allocatedPtr t ≠ NULL → blocks h' !! _allocatedPtr t = None)
    ∧ (∀ p, p ≠ tensor → (_owning t = 0%Z ∨ p ≠ _allocatedPtr t) →
            blocks h' !! p = blocks h !! p)) as Hlast.
  { intros q.
    destruct (update_tensor_at h3 tensor _ (λ t, with_alignedPtr t q) 0 Ht3)
      as (h4 & E4 & B4 & _); [by apply Forall_nil|].
    exists h4. split; [exact E4|]. split_and!.
    - unfold load_tensor. rewrite B4, lookup_insert_eq. done.
    - unfold omTensorGetAllocatedPtr, load_tensor. rewrite B4, lookup_insert_eq. done.
    - unfold omTensorGetDataPtr, load_tensor. rewrite B4, lookup_insert_eq. done.
    - intros Ho Hnull. destruct (Hown Ho) as [Hne _].
      rewrite B4, B3, B2, !lookup_insert_ne by done. auto.
    - intros p Hp Hp2. rewrite B4, B3, B2, !lookup_insert_ne by done. auto. }
  destruct (decide (alignedPtr ≠ NULL)).
  - destruct (Hlast alignedPtr) as (h' & -> & ?). by exists h'.
  - destruct (Hlast allocatedPtr) as (h' & -> & ?). by exists h'.
Qed.

End Ownership.

Section OwnershipWitnesses.

Lemma omTensorDestroy_frees_witness :
  load_tensor owned_example 2%N = Ok (mkOMTensor 1%N 1%N 0 3%N 4%N 2 ONNX_TYPE_INT64 1)
  ∧ 2%N ≠ NULL
  ∧ ∃ h', omTensorDestroy 2%N owned_example = Ok (tt, h')
      ∧ blocks h' !! 2%N = None
      ∧ blocks h' !! 1%N = None
      ∧ blocks h' !! 3%N = blocks owned_example !! 3%N
      ∧ omTensorDestroy 2%N h' = Fail OutOfBounds.
Proof.
  assert (2%N ≠ NULL) as Hnn by discriminate.
  split; [reflexivity|]. split; [exact Hnn|].
  destruct (omTensorDestroy_frees owned_example 2%N
              (mkOMTensor 1%N 1%N 0 3%N 4%N 2 ONNX_TYPE_INT64 1) eq_refl Hnn)
    as (h' & Hrun & Hgone & Hdata & Hframe & Hagain).
  { intros _. split; [discriminate|]. right. by vm_compute; eexists. }
  exists h'. split; [exact Hrun|]. split; [exact Hgone|].
  split; [apply Hdata; discriminate|].
  split; [apply Hframe; [discriminate | right; discriminate]|].
  exact Hagain.
Defined.

Lemma omTensorSetPtr_releases_owned_buffer_witness :
  load_tensor owned_example 2%N = Ok (mkOMTensor 1%N 1%N 0 3%N 4%N 2 ONNX_TYPE_INT64 1)
  ∧ ∃ h', omTensorSetPtr 2%N 0 9%N NULL owned_example = Ok (tt, h')
      ∧ load_tensor h' 2%N = Ok (mkOMTensor 9%N 9%N 0 3%N 4%N 2 ONNX_TYPE_INT64 0)
      ∧ blocks h' !! 1%N = None.
Proof.
  split; [reflexivity|].
  destruct (omTensorSetPtr_releases_owned_buffer owned_example 2%N
              (mkOMTensor 1%N 1%N 0 3%N 4%N 2 ONNX_TYPE_INT64 1) 0 9%N NULL eq_refl)
    as (h' & Hrun & Hload & _ & _ & Hgone & _).
  { intros _. split; [discriminate|]. right. by vm_compute; eexists. }
  exists h'. split; [exact Hrun|]. split; [exact Hload|].
  apply Hgone; discriminate.
Defined.

End OwnershipWitnesses.

Section AllocationFailure.
Implicit Types (h : heap).

Lemma malloc_true (b : block) h (o : list bool) :
  oracle h = true :: o →
  malloc b h = Ok ((brk h + 1)%N, mkHeap (<[(brk h + 1)%N := b]> (blocks h)) (brk h + 1)%N o).
Proof. unfold malloc. by intros ->. Qed.

Lemma malloc_false (b : block) h (o : list bool) :
  oracle h = false :: o →
  malloc b h = Ok (NULL, mkHeap (blocks h) (brk h) o).
Proof. unfold malloc. by intros ->. Qed.

Lemma store_cell_NULL h (i : nat) (v : Z) :
  blocks h !! NULL = None → store_cell NULL i v h = Fail OutOfBounds.
Proof. unfold store_cell. by intros ->. Qed.

(** X23.  When the allocation of the shape array or of the stride array
    fails, [omTensorCreate] of a tensor of rank one or more does not
    return NULL: the branch that would is behind a test that has just
    excluded it, and the loop that follows writes through the null
    pointer. *)
Theorem omTensorCreate_array_allocation_failure h (data_ptr : ptr) (shape : list Z)
    (dtype : OM_DATA_TYPE) (o : list bool) :
  blocks h !! NULL = None →
  shape ≠ [] →
  oracle h = true :: false :: o ∨ oracle h = true :: true :: false :: o →
  omTensorCreate data_ptr shape (Z.of_nat (length shape)) dtype h = Fail OutOfBounds.
Proof.
  intros Hnull Hne Horacle.
  destruct shape as [|x0 shape']; [done|]. clear Hne.
  set (shape := x0 :: shape').
  assert (length shape = S (length shape')) as Hlen by done.
  destruct (lookup_lt_is_Some_2 shape (length shape')) as [x Hx]; [rewrite Hlen; lia|].
  unfold omTensorCreate, malloc_int64s.
  destruct (Z.ltb_spec (Z.of_nat (length shape)) 0) as [?|_]; [lia|].
  rewrite Nat2Z.id.
  change (create_loop (length shape)) with (create_loop (S (length shape'))).
  cbn [create_loop].
  set (p1 := (brk h + 1)%N).
  destruct Horacle as [Ho|Ho].
  - rewrite (bind_Ok _ _ _ _ _ (malloc_true _ h _ Ho)). fold p1.
    rewrite decide_False by (unfold NULL; lia).
    erewrite bind_Ok by (by apply malloc_false).
    erewrite bind_Ok
      by (apply update_tensor_Ok; simpl; apply lookup_insert_eq).
    rewrite decide_True by done.
    rewrite (bind_Ok _ _ _ _ false) by done.
    apply bind_Fail, bind_Fail.
    unfold create_step.
    erewrite bind_Ok by (apply reading_Ok; unfold index; by rewrite Hx).
    erewrite bind_Ok
      by (apply reading_Ok, load_tensor_Ok; simpl; apply lookup_insert_eq).
    apply bind_Fail. apply store_cell_NULL. simpl.
    rewrite !lookup_insert_ne by (unfold NULL; lia). done.
  - rewrite (bind_Ok _ _ _ _ _ (malloc_true _ h _ Ho)). fold p1.
    rewrite decide_False by (unfold NULL; lia).
    erewrite bind_Ok by (by apply malloc_true).
    cbn [brk blocks]. set (p2 := (p1 + 1)%N).
    erewrite bind_Ok.
    2:{ apply update_tensor_Ok. cbn [blocks].
        rewrite lookup_insert_ne by lia. apply lookup_insert_eq. }
    rewrite decide_False by (unfold NULL; lia).
    erewrite bind_Ok; cycle 1.
    { erewrite bind_Ok by (by apply malloc_false).
      erewrite bind_Ok by (apply update_tensor_Ok; cbn [blocks]; apply lookup_insert_eq).
      reflexivity. }
    rewrite bool_decide_eq_false_2 by (intros H; by apply H).
    apply bind_Fail, bind_Fail.
    unfold create_step.
    erewrite bind_Ok by (apply reading_Ok; unfold index; by rewrite Hx).
    erewrite bind_Ok
      by (apply reading_Ok, load_tensor_Ok; cbn [blocks]; apply lookup_insert_eq).
    cbn [_shape _stride with_stride with_shape blank_tensor].
    erewrite bind_Ok.
    2:{ eapply store_cell_Ok.
        - cbn [blocks]. rewrite !lookup_insert_ne by lia. apply lookup_insert_eq.
        - rewrite length_replicate, Hlen. lia. }
    destruct (Z.eqb_spec (Z.of_nat (length shape')) (Z.of_nat (length shape) - 1))
      as [_|?]; [|rewrite Hlen in *; lia].
    apply store_cell_NULL. cbn [blocks].
    rewrite !lookup_insert_ne by (unfold NULL; lia). done.
Qed.

Lemma omTensorCreate_array_allocation_failure_witness :
  blocks failing_heap !! NULL = None
  ∧ [2; 3]%Z ≠ []
  ∧ (oracle failing_heap = true :: false :: []
     ∨ oracle failing_heap = true :: true :: false :: [])
  ∧ omTensorCreate 7%N [2; 3]%Z (Z.of_nat (length [2; 3]%Z)) ONNX_TYPE_FLOAT failing_heap
    = Fail OutOfBounds.
Proof.
  assert ([2; 3]%Z ≠ []) as H2 by discriminate.
  assert (oracle failing_heap = true :: false :: []
          ∨ oracle failing_heap = true :: true :: false :: []) as H3 by (by left).
  split; [reflexivity|]. split; [exact H2|]. split; [exact H3|].
  exact (omTensorCreate_array_allocation_failure failing_heap 7%N [2; 3]%Z
           ONNX_TYPE_FLOAT [] eq_refl H2 H3).
Defined.

End AllocationFailure.

Section AllocationFailureDeprecated.



End AllocationFailureDeprecated.

Section CloseMore.
Implicit Types (h : heap) (T : elem_type).

Lemma load_cells_zero h (p : ptr) : load_cells h p 0 = Ok [].
Proof.
  unfold load_cells. destruct (blocks h !! p) as [[vs|]|]; try done.
  rewrite decide_True by lia. done.
Qed.

(** The run of the comparison on two tensors of one shape, once the data
    were read. *)
Lemma isClose_same_shape T h (a b : ptr) (ta tb : OMTensor)
    (shape aData bData : list Z) (anum : Z) (rtol atol : Q) (out : list event) :
  load_tensor h a = Ok ta →
  load_tensor h b = Ok tb →
  load_cells h (_shape ta) (_rank ta) = Ok shape →
  load_cells h (_shape tb) (_rank tb) = Ok shape →
  omTensorGetNumElems h a = Ok anum →
  load_cells h (_allocatedPtr ta) anum = Ok aData →
  load_cells h (_allocatedPtr tb) anum = Ok bData →
  omTensorAreTwoOmtsClose T h a b rtol atol out
  = (let absoluteDiff := T_abs T <$> zip_with (T_minus T) aData bData in
     do relativeDiff <- pure (divide_all T absoluteDiff aData);
     if forallb (λ x, T_lt_tol x atol) absoluteDiff
        && forallb (λ x, T_lt_tol x rtol) relativeDiff
     then ret true
     else
       do idxs <- pure (omTensorComputeIndexSet h a);
       do _ <- report_mismatches T h a b rtol atol idxs;
       ret false) out.
Proof.
  intros Ha Hb Hsa Hsb Hnum Hda Hdb.
  destruct (load_cells_length _ _ _ _ Hda) as [Hpos _].
  unfold omTensorAreTwoOmtsClose.
  rewrite (bind_Ok _ _ _ _ _ (pure_Ok _ _ out Ha)).
  rewrite (bind_Ok _ _ _ _ _ (pure_Ok _ _ out Hb)).
  rewrite (bind_Ok _ _ _ _ _ (pure_Ok _ _ out Hsa)).
  rewrite (bind_Ok _ _ _ _ _ (pure_Ok _ _ out Hsb)).
  rewrite decide_False by (intros ?; done).
  rewrite (bind_Ok _ _ _ _ _ (pure_Ok _ _ out Hnum)).
  destruct (Z.ltb_spec anum 0) as [?|_]; [lia|].
  rewrite (bind_Ok _ _ out out tt) by done.
  rewrite (bind_Ok _ _ _ _ _ (pure_Ok _ _ out Hda)).
  rewrite (bind_Ok _ _ _ _ _ (pure_Ok _ _ out Hdb)).
  reflexivity.
Qed.

(** X25.  Two tensors of one shape without elements are close under any
    tolerances, zero and negative ones included, and whatever their data
    pointers are. *)
Theorem isClose_empty_tensors T h (a b : ptr) (ta tb : OMTensor) (shape : list Z)
    (rtol atol : Q) (out : list event) :
  load_tensor h a = Ok ta →
  load_tensor h b = Ok tb →
  load_cells h (_shape ta) (_rank ta) = Ok shape →
  load_cells h (_shape tb) (_rank tb) = Ok shape →
  omTensorGetNumElems h a = Ok 0%Z →
  omTensorAreTwoOmtsClose T h a b rtol atol out = Ok (true, out).
Proof.
  intros Ha Hb Hsa Hsb Hnum.
  by rewrite (isClose_same_shape T h a b ta tb shape [] [] 0 rtol atol out
               Ha Hb Hsa Hsb Hnum (load_cells_zero _ _) (load_cells_zero _ _)).
Qed.

(** X26.  When the shapes agree and the strides of [a] are not the dense
    strides of its shape, the comparison does not return: it stops at the
    density assertion of [omTensorGetNumElems], before any element is
    read.  The strides of [b] are not looked at. *)
Theorem isClose_asserts_density_of_a T h (a b : ptr) (ta tb : OMTensor)
    (shape strides : list Z) (rtol atol : Q) (out : list event) :
  load_tensor h a = Ok ta →
  load_tensor h b = Ok tb →
  load_cells h (_shape ta) (_rank ta) = Ok shape →
  load_cells h (_shape tb) (_rank tb) = Ok shape →
  load_cells h (_stride ta) (_rank ta) = Ok strides →
  strides ≠ dense_strides shape →
  omTensorAreTwoOmtsClose T h a b rtol atol out = Fail dense_assertion.
Proof.
  intros Ha Hb Hsa Hsb Hst Hne. unfold omTensorAreTwoOmtsClose.
  rewrite (bind_Ok _ _ _ _ _ (pure_Ok _ _ out Ha)).
  rewrite (bind_Ok _ _ _ _ _ (pure_Ok _ _ out Hb)).
  rewrite (bind_Ok _ _ _ _ _ (pure_Ok _ _ out Hsa)).
  rewrite (bind_Ok _ _ _ _ _ (pure_Ok _ _ out Hsb)).
  rewrite decide_False by (intros ?; done).
  apply bind_Fail. unfold pure, reading.
  rewrite (omTensorGetNumElems_value _ _ _ _ _ Ha Hsa Hst).
  by rewrite decide_False.
Qed.

End CloseMore.

Section CloseWitnesses.

Lemma isClose_empty_tensors_witness :
  load_tensor empty_example 3%N = Ok (mkOMTensor 1%N 1%N 0 4%N 5%N 2 ONNX_TYPE_INT64 0)
  ∧ load_tensor empty_example 6%N = Ok (mkOMTensor 2%N 2%N 0 7%N 8%N 2 ONNX_TYPE_INT64 0)
  ∧ load_cells empty_example 4%N 2 = Ok [3; 0]%Z
  ∧ load_cells empty_example 7%N 2 = Ok [3; 0]%Z
  ∧ omTensorGetNumElems empty_example 3%N = Ok 0%Z
  ∧ omTensorAreTwoOmtsClose int32_t empty_example 3%N 6%N 0 (-1) [] = Ok (true, []).
Proof.
  split; [reflexivity|]. split; [reflexivity|]. split; [reflexivity|].
  split; [reflexivity|]. split; [reflexivity|].
  exact (isClose_empty_tensors int32_t empty_example 3%N 6%N
           (mkOMTensor 1%N 1%N 0 4%N 5%N 2 ONNX_TYPE_INT64 0)
           (mkOMTensor 2%N 2%N 0 7%N 8%N 2 ONNX_TYPE_INT64 0)
           [3; 0]%Z 0 (-1) [] eq_refl eq_refl eq_refl eq_refl eq_refl).
Defined.

Lemma isClose_asserts_density_of_a_witness :
  load_tensor nondense_example 3%N
    = Ok (mkOMTensor 1%N 1%N 0 4%N 5%N 1 ONNX_TYPE_INT64 0)
  ∧ load_tensor nondense_example 6%N
    = Ok (mkOMTensor 2%N 2%N 0 7%N 8%N 1 ONNX_TYPE_INT64 0)
  ∧ load_cells nondense_example 4%N 1 = Ok [2%Z]
  ∧ load_cells nondense_example 7%N 1 = Ok [2%Z]
  ∧ load_cells nondense_example 5%N 1 = Ok [5%Z]
  ∧ [5%Z] ≠ dense_strides [2%Z]
  ∧ omTensorAreTwoOmtsClose int64_t nondense_example 3%N 6%N 1 1 [] = Fail dense_assertion.
Proof.
  assert ([5%Z] ≠ dense_strides [2%Z]) as Hne by (vm_compute; discriminate).
  split; [reflexivity|]. split; [reflexivity|]. split; [reflexivity|].
  split; [reflexivity|]. split; [reflexivity|]. split; [exact Hne|].
  exact (isClose_asserts_density_of_a int64_t nondense_example 3%N 6%N
           (mkOMTensor 1%N 1%N 0 4%N 5%N 1 ONNX_TYPE_INT64 0)
           (mkOMTensor 2%N 2%N 0 7%N 8%N 1 ONNX_TYPE_INT64 0)
           [2%Z] [5%Z] 1 1 [] eq_refl eq_refl eq_refl eq_refl eq_refl Hne).
Defined.

End CloseWitnesses.

Section CloseSelf.
Implicit Types (h : heap) (T : elem_type).

Lemma self_difference T (aData : list Z) :
  T_abs T <$> zip_with (T_minus T) aData aData = replicate (length aData) 0%Z.
Proof.
  induction aData as [|x aData IH]; [done|]. cbn [zip_with fmap list_fmap length replicate].
  fold (fmap (M := list) (T_abs T)). rewrite IH. f_equal.
  unfold T_minus. rewrite Z.sub_diag. by destruct T.
Qed.

Lemma divide_zeros T (aData : list Z) :
  divide_all T (replicate (length aData) 0%Z) aData
  = if decide (0%Z ∈ aData) then Fail DivisionTrap
    else Ok (replicate (length aData) 0%Z).
Proof.
  induction aData as [|x aData IH].
  - rewrite decide_False; [done | apply not_elem_of_nil].
  - cbn [length replicate divide_all]. unfold T_divides at 1.
    destruct (decide (x = 0%Z)) as [->|Hx].
    + rewrite decide_True by (by left). done.
    + rewrite decide_False by (intros [E _]; by destruct T). cbn [res_bind].
      rewrite IH. destruct (decide (0%Z ∈ aData)) as [Hin|Hin].
      * rewrite decide_True by (by right). done.
      * rewrite decide_False; [done|].
        intros [?|?]%elem_of_cons; [congruence | done].
Qed.

Lemma forallb_zeros (f : Z → bool) (n : nat) :
  forallb f (replicate n 0%Z) = true ↔ n = 0 ∨ f 0%Z = true.
Proof.
  induction n as [|n IH]; simpl.
  - split; [by left | done].
  - rewrite andb_true_iff, IH. split.
    + intros [? _]. by right.
    + intros [?|?]; [lia | auto].
Qed.

Lemma zero_lt_tol (tol : Q) : T_lt_tol 0 tol = true ↔ (0 < tol)%Q.
Proof.
  unfold T_lt_tol, Qltb, Qlt. change (float_of_int 0) with 0%Z.
  cbn [inject_Z Qnum Qden]. rewrite Z.ltb_lt. lia.
Qed.

(** X27.  A tensor compared with itself (dense, with readable data) is
    close exactly when it has no element or both tolerances are positive,
    provided no element is 0; with an element 0 the integer instantiation
    divides by zero. *)
Theorem isClose_with_itself T h (a : ptr) (ta : OMTensor) (shape aData : list Z)
    (anum : Z) (rtol atol : Q) (out : list event) :
  load_tensor h a = Ok ta →
  load_cells h (_shape ta) (_rank ta) = Ok shape →
  omTensorGetNumElems h a = Ok anum →
  load_cells h (_allocatedPtr ta) anum = Ok aData →
  (0%Z ∈ aData → omTensorAreTwoOmtsClose T h a a rtol atol out = Fail DivisionTrap)
  ∧ (0%Z ∉ aData → aData = [] ∨ (0 < atol ∧ 0 < rtol)%Q →
     omTensorAreTwoOmtsClose T h a a rtol atol out = Ok (true, out))
  ∧ (0%Z ∉ aData → ¬ (aData = [] ∨ (0 < atol ∧ 0 < rtol)%Q) →
     ∀ out', omTensorAreTwoOmtsClose T h a a rtol atol out ≠ Ok (true, out')).
Proof.
  intros Ha Hsa Hnum Hda.
  rewrite (isClose_same_shape T h a a ta ta shape aData aData anum rtol atol out
             Ha Ha Hsa Hsa Hnum Hda Hda).
  cbv zeta. rewrite self_difference.
  assert (0%Z ∉ aData →
          pure (S := list event) (divide_all T (replicate (length aData) 0%Z) aData) out
          = Ok (replicate (length aData) 0%Z, out)) as Hdiv.
  { intros Hnin. apply pure_Ok. by rewrite divide_zeros, decide_False. }
  split_and!.
  - intros Hin. apply bind_Fail. unfold pure, reading.
    by rewrite divide_zeros, decide_True.
  - intros Hnin Hok. rewrite (bind_Ok _ _ _ _ _ (Hdiv Hnin)).
    assert (forallb (λ x, T_lt_tol x atol) (replicate (length aData) 0%Z) = true) as ->.
    { apply forallb_zeros. destruct Hok as [->|[? _]]; [by left|].
      right. by apply zero_lt_tol. }
    assert (forallb (λ x, T_lt_tol x rtol) (replicate (length aData) 0%Z) = true) as ->.
    { apply forallb_zeros. destruct Hok as [->|[_ ?]]; [by left|].
      right. by apply zero_lt_tol. }
    done.
  - intros Hnin Hnot out'. rewrite (bind_Ok _ _ _ _ _ (Hdiv Hnin)).
    destruct (forallb (λ x, T_lt_tol x atol) _) eqn:Eatol;
      [destruct (forallb (λ x, T_lt_tol x rtol) _) eqn:Ertol|]; cbn [andb].
    + destruct Hnot.
      apply forallb_zeros in Eatol, Ertol.
      destruct Eatol as [E|Ea]; [left; by apply nil_length_inv|].
      destruct Ertol as [E|Er]; [left; by apply nil_length_inv|].
      right. split; by apply zero_lt_tol.
    + unfold bind.
      destruct (pure (omTensorComputeIndexSet h a) out) as [[idxs o1]|]; [|done].
      destruct (report_mismatches _ _ _ _ _ _ _ o1) as [[[] o2]|]; done.
    + unfold bind.
      destruct (pure (omTensorComputeIndexSet h a) out) as [[idxs o1]|]; [|done].
      destruct (report_mismatches _ _ _ _ _ _ _ o1) as [[[] o2]|]; done.
Qed.

Lemma isClose_with_itself_witness :
  load_tensor self_example 3%N = Ok (mkOMTensor 1%N 1%N 0 4%N 5%N 1 ONNX_TYPE_INT64 0)
  ∧ load_cells self_example 4%N 1 = Ok [2%Z]
  ∧ omTensorGetNumElems self_example 3%N = Ok 2%Z
  ∧ load_cells self_example 1%N 2 = Ok [5; -7]%Z
  ∧ (0%Z ∉ [5; -7]%Z)
  ∧ omTensorAreTwoOmtsClose int64_t self_example 3%N 3%N (1 # 10) (1 # 10) []
    = Ok (true, []).
Proof.
  assert (0%Z ∉ [5; -7]%Z) as Hnin.
  { intros H. apply elem_of_cons in H as [?|H]; [done|].
    apply elem_of_cons in H as [?|H]; [done|]. by apply elem_of_nil in H. }
  split; [reflexivity|]. split; [reflexivity|]. split; [reflexivity|].
  split; [reflexivity|]. split; [exact Hnin|].
  refine (proj1 (proj2 (isClose_with_itself int64_t self_example 3%N
           (mkOMTensor 1%N 1%N 0 4%N 5%N 1 ONNX_TYPE_INT64 0)
           [2%Z] [5; -7]%Z 2 (1 # 10) (1 # 10) [] eq_refl eq_refl eq_refl eq_refl))
           Hnin _).
  right. split; reflexivity.
Defined.

End CloseSelf.

(** ** The diagnostic loop of the comparison *)

Section Diagnostics.

(** For [int32_t] the [abs] of the diagnostic loop is [std::abs] on [T]. *)
Lemma int_abs_int32_t (x y : Z) :
  int_abs (T_minus int32_t x y) = T_abs int32_t (T_minus int32_t x y).
Proof.
  unfold int_abs, T_abs, T_minus. cbn [bits].
  rewrite (wrap_small 32 (wrap 32 (x - y))); [done | lia |].
  apply wrap_range. lia.
Qed.

(** For [int64_t] it is not: a difference of 2^32 is 0 as an [int].  The
    bulk check, which uses [std::abs], finds the pair not close; the loop
    then finds every element within both tolerances and writes nothing. *)
Example diagnostic_abs_truncates :
  load_cells truncation_example 1%N 1 = Ok [5000000000%Z]
  ∧ load_cells truncation_example 2%N 1 = Ok [705032704%Z]
  ∧ omTensorAreTwoOmtsClose int64_t truncation_example 3%N 6%N 1 1 []
    = Ok (false, []).
Proof. split_and!; by vm_compute. Qed.

End Diagnostics.
